(** * An in-memory table store: [database.py]

    Shallow embedding of the classes [Field], [Row], [Table] and [Database]
    and proofs of the properties their specification states.

    - Python values and type tags are the four builtins the source names in
      [Union[str, int, float, bool]]; [int] is unbounded, hence [Z].
    - A method is a computation over the state of [self] that either returns
      or raises, and that records every call it makes to a caller-supplied
      condition.
    - A method declared [def m(self, **kwargs)] cannot be called with a
      keyword argument named [self]: Python raises [TypeError] when it binds
      the arguments, before the body runs.
    - A dict is the list of its items in insertion order, no key twice.
    - A [Database] holds its tables by reference: the store maps references
      to [Table] objects, and [_tables] maps names to references. *)

From Stdlib Require Import ZArith String Ascii.
From Stdlib Require Import Floats.SpecFloat.
From stdpp Require Import gmap strings list fin_maps.

Local Open Scope Z_scope.

(** ** Values and type tags *)

(** The runtime values a row may hold ([Union[str, int, float, bool]]). *)
Inductive value : Type :=
  | VStr (s : string)
  | VInt (z : Z)
  | VFloat (f : spec_float)
  | VBool (b : bool).

(** The builtin classes used as [data_type]. *)
Inductive pytype : Type := str | int | float | bool_.

(** [type(v)]. *)
Definition type_of (v : value) : pytype :=
  match v with
  | VStr _ => str
  | VInt _ => int
  | VFloat _ => float
  | VBool _ => bool_
  end.

(** [issubclass(a, b)] on the four builtins: in Python [bool] is a subclass
    of [int], and there is no other relation between them. *)
Definition issubclass (a b : pytype) : bool :=
  match a, b with
  | str, str | int, int | float, float | bool_, bool_ => true
  | bool_, int => true
  | _, _ => false
  end.

(** [isinstance(v, ty)]. *)
Definition isinstance (v : value) (ty : pytype) : bool :=
  issubclass (type_of v) ty.

(** Keyword arguments [**kwargs]: a dict iterated in the order the caller
    wrote it. Python guarantees that its keys are distinct; theorems that
    need this assume [NoDup kwargs.*1]. *)
Abbreviation kwargs := (list (string * value)).

(** ** Dicts *)

(** A dict from names to values: its items, in the order in which their
    keys were first inserted. *)
Record dict : Type := Dict { dict_items : list (string * value) }.

(** [d[k]] on the items of [d]. *)
Fixpoint assoc_get (k : string) (l : list (string * value)) : option value :=
  match l with
  | [] => None
  | (k', v) :: rest => if String.eqb k' k then Some v else assoc_get k rest
  end.

(** [d[k] = v] on the items of [d]: the value of a key that is present is
    replaced where the key stands, a new key goes to the end. *)
Fixpoint assoc_set (k : string) (v : value) (l : list (string * value))
  : list (string * value) :=
  match l with
  | [] => [(k, v)]
  | (k', v') :: rest =>
      if String.eqb k' k then (k', v) :: rest
      else (k', v') :: assoc_set k v rest
  end.

#[global] Instance dict_lookup : Lookup string value dict :=
  fun k d => assoc_get k (dict_items d).

Definition dict_set (k : string) (v : value) (d : dict) : dict :=
  Dict (assoc_set k v (dict_items d)).

(** ** Exceptions *)

(** [ValueError] and [TableNotFoundError] are raised by the code;
    [TypeError] is raised by Python when a call cannot bind its arguments. *)
Inductive exn : Type :=
  | ValueError (msg : string)
  | TableNotFoundError (msg : string)
  | TypeError (msg : string).

(** The message of the [TypeError] for a keyword argument named [self] in a
    call of the method [qualname], whose first parameter is [self] (the text
    is the interpreter's, as of CPython 3.10). *)
Definition msg_self (qualname : string) : string :=
  qualname +:+ "() got multiple values for argument 'self'".

(** ** class Field *)

Module Field.
Record t : Type := mk { name : string; data_type : pytype }.
End Field.

(** ** class Row *)

Module Row.
Record t : Type := mk { fields : dict }.

(** [def add_field(self, field_name, field_value)]:
    [self.fields[field_name] = field_value]. *)
Definition add_field (field_name : string) (field_value : value) (self : t) : t :=
  mk (dict_set field_name field_value (fields self)).

(** The body of [__init__]: starts from the empty dict and stores every
    item of [kwargs] in order. *)
Definition init_body (kw : kwargs) : t :=
  foldl (fun self item => mk (dict_set item.1 item.2 (fields self)))
        (mk (Dict [])) kw.

(** The call of [Row] with [def __init__(self, **kwargs)]: a keyword argument
    named [self] collides with the first parameter and the call raises
    [TypeError]; otherwise the body runs. *)
Definition init (kw : kwargs) : exn + t :=
  if bool_decide ("self" ∈ kw.*1)
  then inl (TypeError (msg_self "Row.__init__"))
  else inr (init_body kw).
End Row.

(** References to objects in the store. *)
Abbreviation ref := positive.

(** ** class Table: state *)

Module TableState.
Record t : Type := mk {
  name : string;
  _fields : list Field.t;
  _rows : list Row.t;
  _related_tables : gmap string ref
}.
End TableState.

(** ** Computations of a method of [Table] *)

(** What running a method yields: the value returned or the exception
    raised, the state of [self] afterwards, and the rows on which the
    caller's condition was called, in call order. *)
Record outcome (A : Type) : Type := Outcome {
  result : exn + A;
  final : TableState.t;
  calls : list Row.t
}.
Arguments Outcome {A} _ _ _.
Arguments result {A} _.
Arguments final {A} _.
Arguments calls {A} _.

Definition M (A : Type) : Type := TableState.t -> outcome A.

Definition ret {A} (a : A) : M A := fun self => Outcome (inr a) self [].

Definition bind {A B} (m : M A) (k : A -> M B) : M B :=
  fun self =>
    let o := m self in
    match result o with
    | inl e => Outcome (inl e) (final o) (calls o)
    | inr a =>
        let o' := k a (final o) in
        Outcome (result o') (final o') (calls o ++ calls o')
    end.

(** [raise e]: the state reached so far is kept. *)
Definition raise {A} (e : exn) : M A := fun self => Outcome (inl e) self [].

(** Reading an attribute of [self]. *)
Definition read {A} (f : TableState.t -> A) : M A :=
  fun self => Outcome (inr (f self)) self [].

(** Updating [self] in place. *)
Definition update (f : TableState.t -> TableState.t) : M unit :=
  fun self => Outcome (inr tt) (f self) [].

(** [condition(row)] for a caller-supplied function from rows to booleans. *)
Definition call (condition : Row.t -> bool) (row : Row.t) : M bool :=
  fun self => Outcome (inr (condition row)) self [row].

Notation "x <- m ;; k" := (bind m (fun x => k))
  (at level 100, m at next level, right associativity).
Notation "m ;;; k" := (bind m (fun _ => k))
  (at level 100, right associativity).

(** ** class Table: methods *)

Module Table.
Import TableState.

(** [def __init__(self, name)]. *)
Definition init (name : string) : TableState.t :=
  TableState.mk name [] [] ∅.

(** [def add_field(self, field_name, data_type)]. *)
Definition add_field (field_name : string) (data_type : pytype) : M unit :=
  update (fun self =>
    TableState.mk (name self) (_fields self ++ [Field.mk field_name data_type])
                  (_rows self) (_related_tables self)).

(** [def add_fields(self, fields_dict)]: one [add_field] per item, in the
    iteration order of the dict. *)
Fixpoint add_fields (fields_dict : list (string * pytype)) : M unit :=
  match fields_dict with
  | [] => ret tt
  | (field_name, data_type) :: rest =>
      add_field field_name data_type ;;; add_fields rest
  end.

(** [next((field.data_type for field in self._fields
          if field.name == field_name), None)]: the type of the first entry
    with that name. A declared type is a class, never [None], so [None]
    here means that no entry has the name. *)
Fixpoint next_data_type (fields : list Field.t) (field_name : string)
  : option pytype :=
  match fields with
  | [] => None
  | field :: rest =>
      if String.eqb (Field.name field) field_name
      then Some (Field.data_type field)
      else next_data_type rest field_name
  end.

Definition msg_count : string :=
  "Number of fields in row does not match the number of fields in table schema.".
Definition msg_unknown (field_name : string) : string :=
  "Field '" +:+ field_name +:+ "' does not exist in table schema.".
Definition msg_type (field_name : string) : string :=
  "Field '" +:+ field_name +:+ "' type does not match the expected type.".

(** The [for field_name, field_value in kwargs.items()] loop of
    [add_row]. *)
Fixpoint check_items (items : kwargs) : M unit :=
  match items with
  | [] => ret tt
  | (field_name, field_value) :: rest =>
      expected_data_type <-
        read (fun self => next_data_type (_fields self) field_name) ;;
      match expected_data_type with
      | None => raise (ValueError (msg_unknown field_name))
      | Some ty =>
          if negb (isinstance field_value ty)
          then raise (ValueError (msg_type field_name))
          else check_items rest
      end
  end.

(** [def add_row(self, **kwargs)]: a keyword argument named [self]
    collides with the first parameter and the call raises [TypeError] before
    the body runs; building the row raises what [Row.init] raises. *)
Definition add_row (kw : kwargs) : M unit :=
  if bool_decide ("self" ∈ kw.*1)
  then raise (TypeError (msg_self "Table.add_row"))
  else
    n <- read (fun self => length (_fields self)) ;;
    if negb (Nat.eqb (length kw) n)
    then raise (ValueError msg_count)
    else
      check_items kw ;;;
      match Row.init kw with
      | inl e => raise e
      | inr row =>
          update (fun self =>
            TableState.mk (name self) (_fields self) (_rows self ++ [row])
                          (_related_tables self))
      end.

(** The [for row in self._rows] loop of [find]. *)
Fixpoint find_loop (condition : Row.t -> bool) (rows : list Row.t)
  : M (option Row.t) :=
  match rows with
  | [] => ret None
  | row :: rest =>
      b <- call condition row ;;
      if b then ret (Some row) else find_loop condition rest
  end.

(** [def find(self, condition)]; [None] is the value returned when the
    loop ends without a match. *)
Definition find (condition : Row.t -> bool) : M (option Row.t) :=
  rows <- read _rows ;;
  find_loop condition rows.

(** The [for row in self._rows] loop of [findMany], with [rowsFound] as
    collected so far. *)
Fixpoint findMany_loop (condition : Row.t -> bool) (amount : Z)
    (rows : list Row.t) (rowsFound : list Row.t) : M (list Row.t) :=
  match rows with
  | [] => ret rowsFound
  | row :: rest =>
      b <- call condition row ;;
      if b then
        let rowsFound := rowsFound ++ [row] in
        if Z.of_nat (length rowsFound) =? amount
        then ret rowsFound
        else findMany_loop condition amount rest rowsFound
      else findMany_loop condition amount rest rowsFound
  end.

(** [def findMany(self, condition, amount=0)]. *)
Definition findMany (condition : Row.t -> bool) (amount : Z)
  : M (list Row.t) :=
  rows <- read _rows ;;
  findMany_loop condition amount rows [].

(** Property [fields]: the names of the schema, in order. *)
Definition fields (self : TableState.t) : list string :=
  map Field.name (_fields self).

(** Property [rows]: the dict of every row, in order. *)
Definition rows (self : TableState.t) : list dict :=
  map Row.fields (_rows self).
End Table.

(** ** class Database *)

Module Database.
(** The attributes of a [Database] object. *)
Record t : Type := mk { _tables : gmap string ref }.

(** The objects a program has built: the [Table] objects by reference,
    and the database [self]. *)
Record world : Type := World {
  heap : gmap ref TableState.t;
  self : t
}.

(** [def __init__(self)], in a store without tables. *)
Definition init : world := World ∅ (mk ∅).

(** [def create(self, table_name)]: a new [Table] object is built, stored
    under [table_name] and returned. *)
Definition create (table_name : string) (w : world) : ref * world :=
  let table := fresh (dom (heap w)) in
  (table,
   World (<[table := Table.init table_name]> (heap w))
         (mk (<[table_name := table]> (_tables (self w))))).

Definition msg_missing (table_name : string) : string :=
  "Table '" +:+ table_name +:+ "' does not exist.".

(** [def get(self, table_name)]: [self._tables[table_name]] when
    [table_name in self._tables]. *)
Definition get (table_name : string) (w : world) : exn + ref :=
  match _tables (self w) !! table_name with
  | Some table => inr table
  | None => inl (TableNotFoundError (msg_missing table_name))
  end.

(** A run of [create] calls, one per name, with the references they
    return. *)
Fixpoint creates (table_names : list string) (w : world) : list ref * world :=
  match table_names with
  | [] => ([], w)
  | table_name :: rest =>
      let '(table, w1) := create table_name w in
      let '(tables, w2) := creates rest w1 in
      (table :: tables, w2)
  end.
End Database.

(** ** Predicates used in the statements *)

(** The supplied names are exactly the names of the schema. *)
Definition same_names (self : TableState.t) (kw : kwargs) : Prop :=
  ∀ k, k ∈ kw.*1 ↔ k ∈ Table.fields self.

(** Every supplied value is an instance of the type declared by the schema
    for its name. *)
Definition well_typed (self : TableState.t) (kw : kwargs) : Prop :=
  ∀ k v f, (k, v) ∈ kw → f ∈ TableState._fields self → Field.name f = k →
           isinstance v (Field.data_type f) = true.

(** The per-item test of [add_row]: the name resolves and the value is an
    instance of the resolved type. *)
Definition accepts (fields : list Field.t) (item : string * value) : bool :=
  match Table.next_data_type fields item.1 with
  | Some ty => isinstance item.2 ty
  | None => false
  end.

(** [self] after [row] has been appended to [_rows]. *)
Definition with_row (self : TableState.t) (row : Row.t) : TableState.t :=
  TableState.mk (TableState.name self) (TableState._fields self)
                (TableState._rows self ++ [row])
                (TableState._related_tables self).

(** The table built by [Table(name)] followed by one [add_field] call per
    entry of [schema], in order. *)
Definition table_of (name : string) (schema : list (string * pytype))
  : TableState.t :=
  foldl (fun self entry => final (Table.add_field entry.1 entry.2 self))
        (Table.init name) schema.

(** ** Calling a method of a stored table *)

(** [table.method(...)] for a reference [table] obtained from [create] or
    [get]: the method runs on the object the reference points to, which is
    updated in place; the attributes of the database are not touched. The
    result is [None] for a reference that points to no object, which neither
    [create] nor [get] hands out. *)
Definition on_table {A} (table : ref) (m : M A) (w : Database.world)
  : option (outcome A * Database.world) :=
  match Database.heap w !! table with
  | Some self =>
      let o := m self in
      Some (o, Database.World (<[table := final o]> (Database.heap w))
                              (Database.self w))
  | None => None
  end.

(** ** Invariants *)

(** The dict of [row] has exactly the names of the schema [fields] as keys,
    and every value passes the test [add_row] makes against [fields]. *)
Definition conforms (fields : list Field.t) (row : Row.t) : Prop :=
  (∀ k, is_Some (Row.fields row !! k) ↔ k ∈ map Field.name fields)
  ∧ ∀ k v, Row.fields row !! k = Some v → accepts fields (k, v) = true.

(** Every row of the table conforms to the schema of the table. *)
Definition rows_conform (self : TableState.t) : Prop :=
  Forall (conforms (TableState._fields self)) (TableState._rows self).

(** Every name of [_tables] refers to an object of the store, and that
    object is a table of that name. *)
Definition names_agree (w : Database.world) : Prop :=
  ∀ table_name table,
    Database._tables (Database.self w) !! table_name = Some table →
    ∃ self, Database.heap w !! table = Some self
            ∧ TableState.name self = table_name.

(** The method [m] leaves the attribute [name] of its table alone. *)
Definition keeps_name {A} (m : M A) : Prop :=
  ∀ self, TableState.name (final (m self)) = TableState.name self.

(** ** Example objects *)

Module Ex.
(** [t = Table("users"); t.add_field("name", str); t.add_field("age", int)]. *)
Definition users : TableState.t := table_of "users" [("name", str); ("age", int)].

(** [name="Ana", age=30], [name="Bob"] and [name="Eve", age=True]. *)
Definition ana : kwargs := [("name", VStr "Ana"); ("age", VInt 30)].
Definition bob : kwargs := [("name", VStr "Bob")].
Definition eve : kwargs := [("name", VStr "Eve"); ("age", VBool true)].
Definition cat : kwargs := [("name", VStr "Cat"); ("age", VInt 7)].
Definition dan : kwargs := [("name", VStr "Dan"); ("age", VInt 41)].

(** [name="Eve", self=1] and the schema with the one field [self: int]. *)
Definition with_self : kwargs := [("name", VStr "Eve"); ("self", VInt 1)].
Definition self_kw : kwargs := [("self", VBool true)].
Definition self_schema : TableState.t := table_of "t" [("self", int)].

(** [users] after the rows [ana], [cat], [dan] and [eve] were added. *)
Definition people : TableState.t :=
  foldl (fun self kw => final (Table.add_row kw self)) users
        [ana; cat; dan; eve].

(** [lambda r: r["age"] >= 18] on rows whose age is an [int]. *)
Definition adult (r : Row.t) : bool :=
  match Row.fields r !! "age" with
  | Some (VInt z) => 18 <=? z
  | _ => false
  end.

(** A schema in which the name [a] was added twice. *)
Definition twice : TableState.t := table_of "t" [("a", int); ("a", int)].
Definition one : kwargs := [("a", VInt 1)].

(** [age=30, name="Ana"] and [name="Ana", age="x"]. *)
Definition ana_swapped : kwargs := [("age", VInt 30); ("name", VStr "Ana")].
Definition bad_age : kwargs := [("name", VStr "Ana"); ("age", VStr "x")].

(** [{"name": str, "age": int}]. *)
Definition users_dict : list (string * pytype) := [("name", str); ("age", int)].

(** [users] after [add_row(name="Ana", age=30)]. *)
Definition with_ana : TableState.t := final (Table.add_row ana users).

(** [db = Database(); db.create("users")], then [db.create("orders")]. *)
Definition db1 : ref * Database.world := Database.create "users" Database.init.
Definition db2 : ref * Database.world := Database.create "orders" (snd db1).
End Ex.

(** * Properties *)

Import TableState.

(** ** Schema lookup *)

Lemma next_data_type_Some fields k ty :
  Table.next_data_type fields k = Some ty →
  ∃ f, f ∈ fields ∧ Field.name f = k ∧ Field.data_type f = ty.
Proof.
  induction fields as [|f fields IH]; simpl; [done|].
  destruct (String.eqb_spec (Field.name f) k) as [Heq|Hne].
  - intros [= <-]. exists f. split; [apply list_elem_of_here | done].
  - intros H. destruct (IH H) as (g & Hg & Hk & Hty).
    exists g. split; [by apply list_elem_of_further | done].
Qed.

Lemma next_data_type_None fields k :
  Table.next_data_type fields k = None ↔ k ∉ map Field.name fields.
Proof.
  induction fields as [|f fields IH]; simpl.
  - split; [intros _; apply not_elem_of_nil | done].
  - rewrite not_elem_of_cons.
    destruct (String.eqb_spec (Field.name f) k) as [Heq|Hne].
    + split; [done | intros [Hk _]; by destruct Hk].
    + rewrite IH. split; [intros ?; split; [congruence | done] | by intros [_ ?]].
  Qed.

Lemma next_data_type_first pre f post :
  Field.name f ∉ map Field.name pre →
  Table.next_data_type (pre ++ f :: post) (Field.name f)
  = Some (Field.data_type f).
Proof.
  induction pre as [|g pre IH]; simpl.
  - intros _. by rewrite String.eqb_refl.
  - rewrite not_elem_of_cons. intros [Hne Hpre].
    destruct (String.eqb_spec (Field.name g) (Field.name f)) as [Heq|_].
    + by destruct Hne.
    + by apply IH.
Qed.

Lemma next_data_type_NoDup fields f :
  NoDup (map Field.name fields) → f ∈ fields →
  Table.next_data_type fields (Field.name f) = Some (Field.data_type f).
Proof.
  intros Hnd Hin. apply list_elem_of_split in Hin as (pre & post & ->).
  apply next_data_type_first.
  rewrite map_app in Hnd. simpl in Hnd.
  apply NoDup_app in Hnd as (_ & Hdisj & _).
  intros Hpre. apply (Hdisj _ Hpre), list_elem_of_here.
Qed.

(** ** Running [add_row] *)

Lemma check_items_pure items self :
  final (Table.check_items items self) = self ∧
  calls (Table.check_items items self) = [].
Proof.
  induction items as [|[k v] items IH]; simpl; [done|].
  unfold bind, read; simpl.
  destruct (Table.next_data_type (_fields self) k) as [ty|]; simpl; [|done].
  destruct (isinstance v ty); simpl; [|done].
  destruct IH as [IH1 IH2].
  destruct (Table.check_items items self) as [[e|[]] s c]; simpl in *; by subst.
Qed.

Lemma check_items_result items self :
  (forallb (accepts (_fields self)) items = true ∧
   result (Table.check_items items self) = inr tt)
  ∨ ∃ k v, (k, v) ∈ items ∧ accepts (_fields self) (k, v) = false ∧
      (result (Table.check_items items self)
         = inl (ValueError (Table.msg_unknown k))
       ∨ result (Table.check_items items self)
         = inl (ValueError (Table.msg_type k))).
Proof.
  induction items as [|[k v] items IH]; simpl; [by left|].
  unfold bind, read, accepts; simpl.
  destruct (Table.next_data_type (_fields self) k) as [ty|] eqn:Hk; simpl.
  - destruct (isinstance v ty) eqn:Hty; simpl.
    + destruct IH as [[Hall Hres]|(k' & v' & Hin & Hacc & Hres)].
      * left. split; [done|].
        destruct (Table.check_items items self) as [[e|[]] s c]; simpl in *;
          congruence.
      * right. exists k', v'. split; [by apply list_elem_of_further|].
        split; [done|].
        destruct (Table.check_items items self) as [[e|[]] s c]; simpl in *;
          destruct Hres; (by left) || (by right) || congruence.
    + right. exists k, v. split; [apply list_elem_of_here|].
      split; [by rewrite Hk | by right].
  - right. exists k, v. split; [apply list_elem_of_here|].
    split; [by rewrite Hk | by left].
Qed.

Lemma check_items_ok items self :
  result (Table.check_items items self) = inr tt ↔
  forallb (accepts (_fields self)) items = true.
Proof.
  destruct (check_items_result items self)
    as [[Hall Hres]|(k & v & Hin & Hacc & Hres)]; [done|].
  split.
  - intros H. destruct Hres; congruence.
  - intros Hall. rewrite forallb_forall in Hall.
    apply list_elem_of_In, Hall in Hin. congruence.
Qed.

(** ** Dicts and rows *)



Lemma assoc_set_fresh k v (l : list (string * value)) :
  k ∉ l.*1 → assoc_set k v l = l ++ [(k, v)].
Proof.
  induction l as [|[k' v'] l IH]; simpl; [done|].
  rewrite not_elem_of_cons. intros [Hne Hl].
  destruct (String.eqb_spec k' k) as [Heq|_]; [by destruct Hne|].
  by rewrite IH.
Qed.

Lemma assoc_get_None k (l : list (string * value)) :
  assoc_get k l = None ↔ k ∉ l.*1.
Proof.
  induction l as [|[k' v'] l IH]; simpl.
  - split; [intros _; apply not_elem_of_nil | done].
  - rewrite not_elem_of_cons.
    destruct (String.eqb_spec k' k) as [Heq|Hne].
    + split; [done | intros [Hk _]; by destruct Hk].
    + rewrite IH. split; [intros ?; split; [congruence | done] | by intros [_ ?]].
Qed.

Lemma assoc_get_elem k v (l : list (string * value)) :
  assoc_get k l = Some v → (k, v) ∈ l.
Proof.
  induction l as [|[k' v'] l IH]; simpl; [done|].
  destruct (String.eqb_spec k' k) as [->|Hne].
  - intros [= ->]. apply list_elem_of_here.
  - intros H. by apply list_elem_of_further, IH.
Qed.

Lemma assoc_get_Some k v (l : list (string * value)) :
  NoDup l.*1 → assoc_get k l = Some v ↔ (k, v) ∈ l.
Proof.
  intros Hnd. split; [apply assoc_get_elem|].
  induction l as [|[k' v'] l IH]; simpl in *.
  - intros Hin. by apply elem_of_nil in Hin.
  - apply NoDup_cons in Hnd as [Hfresh Hnd].
    intros [[= -> ->]|Hin]%elem_of_cons.
    + by rewrite String.eqb_refl.
    + destruct (String.eqb_spec k' k) as [->|Hne]; [|by apply IH].
      destruct Hfresh. apply list_elem_of_fmap. by exists (k, v).
Qed.

Lemma elem_of_keys (kw : kwargs) k : k ∈ kw.*1 ↔ ∃ v, (k, v) ∈ kw.
Proof.
  rewrite list_elem_of_fmap. split.
  - intros ([k' v] & -> & Hin). by exists v.
  - intros (v & Hin). by exists (k, v).
Qed.

Lemma assoc_get_is_Some k (l : list (string * value)) :
  is_Some (assoc_get k l) ↔ k ∈ l.*1.
Proof.
  destruct (assoc_get k l) as [v|] eqn:Hk.
  - split; [|by eauto]. intros _. apply elem_of_keys.
    exists v. by apply assoc_get_elem.
  - apply assoc_get_None in Hk. split; [by intros [? ?] | done].
Qed.

(** The body of [Row.__init__] on distinct names keeps the items as the
    caller wrote them. *)
Lemma row_store_items (kw : kwargs) : ∀ l,
  NoDup (l ++ kw).*1 →
  foldl (fun self item => Row.mk (dict_set item.1 item.2 (Row.fields self)))
        (Row.mk (Dict l)) kw
  = Row.mk (Dict (l ++ kw)).
Proof.
  induction kw as [|[k v] kw IH]; intros l Hnd; simpl.
  - by rewrite app_nil_r.
  - unfold dict_set. simpl. rewrite assoc_set_fresh.
    + rewrite IH; rewrite <- app_assoc; done.
    + rewrite fmap_app in Hnd. simpl in Hnd.
      apply NoDup_app in Hnd as (_ & Hdisj & _).
      intros Hk. apply (Hdisj _ Hk), list_elem_of_here.
Qed.

Lemma row_init_body_items (kw : kwargs) :
  NoDup kw.*1 → Row.init_body kw = Row.mk (Dict kw).
Proof. intros Hnd. by apply (row_store_items kw []). Qed.

Lemma row_init_bound (kw : kwargs) :
  "self" ∉ kw.*1 → Row.init kw = inr (Row.init_body kw).
Proof. intros Hself. unfold Row.init. by rewrite bool_decide_eq_false_2. Qed.

Lemma row_init_self (kw : kwargs) :
  "self" ∈ kw.*1 → Row.init kw = inl (TypeError (msg_self "Row.__init__")).
Proof. intros Hself. unfold Row.init. by rewrite bool_decide_eq_true_2. Qed.

(** ** Running [add_row], continued *)

(** [add_row] with a keyword argument named [self]. *)
Lemma add_row_self kw self :
  "self" ∈ kw.*1 →
  Table.add_row kw self
  = Outcome (inl (TypeError (msg_self "Table.add_row"))) self [].
Proof.
  intros Hself. unfold Table.add_row. by rewrite bool_decide_eq_true_2.
Qed.

(** [add_row] unfolded, once its arguments are bound: the count test, then
    the loop, then the append. *)
Lemma add_row_run kw self :
  "self" ∉ kw.*1 →
  Table.add_row kw self =
  if negb (Nat.eqb (length kw) (length (_fields self)))
  then Outcome (inl (ValueError Table.msg_count)) self []
  else match result (Table.check_items kw self) with
       | inl e => Outcome (inl e) self []
       | inr _ => Outcome (inr tt) (with_row self (Row.init_body kw)) []
       end.
Proof.
  intros Hself. unfold Table.add_row.
  rewrite bool_decide_eq_false_2, row_init_bound by done.
  unfold bind, read, raise, update; simpl.
  destruct (Nat.eqb (length kw) (length (_fields self))); simpl; [|done].
  destruct (check_items_pure kw self) as [Hf Hc].
  destruct (Table.check_items kw self) as [[e|[]] s c]; simpl in *; by subst.
Qed.

(** The three ways a call of [add_row] ends. *)
Lemma add_row_cases kw self :
  ("self" ∈ kw.*1 ∧
   Table.add_row kw self
   = Outcome (inl (TypeError (msg_self "Table.add_row"))) self [])
  ∨ (("self" ∉ kw.*1) ∧
     ∃ msg, Table.add_row kw self = Outcome (inl (ValueError msg)) self [])
  ∨ (("self" ∉ kw.*1) ∧ length kw = length (_fields self) ∧
     forallb (accepts (_fields self)) kw = true ∧
     Table.add_row kw self
     = Outcome (inr tt) (with_row self (Row.init_body kw)) []).
Proof.
  destruct (decide ("self" ∈ kw.*1)) as [Hself|Hself].
  - left. split; [done | by apply add_row_self].
  - right. rewrite add_row_run by done.
    destruct (Nat.eqb_spec (length kw) (length (_fields self))) as [Hlen|Hlen];
      simpl; [|left; split; [done | by eexists]].
    destruct (check_items_result kw self)
      as [[Hall Hres]|(k & v & _ & _ & [Hres|Hres])]; rewrite Hres.
    + by right.
    + left. split; [done | by eexists].
    + left. split; [done | by eexists].
Qed.

Lemma add_row_result kw self :
  "self" ∉ kw.*1 →
  result (Table.add_row kw self) =
  if negb (Nat.eqb (length kw) (length (_fields self)))
  then inl (ValueError Table.msg_count)
  else result (Table.check_items kw self).
Proof.
  intros Hself. rewrite add_row_run by done.
  destruct (Nat.eqb (length kw) (length (_fields self))); simpl; [|done].
  by destruct (result (Table.check_items kw self)) as [e|[]].
Qed.

Lemma add_row_ok kw self :
  result (Table.add_row kw self) = inr tt ↔
  ("self" ∉ kw.*1) ∧ length kw = length (_fields self) ∧
  forallb (accepts (_fields self)) kw = true.
Proof.
  split.
  - destruct (add_row_cases kw self)
      as [[_ ->]|[(_ & msg & ->)|(Hself & Hlen & Hall & _)]]; done.
  - intros (Hself & Hlen & Hall). rewrite add_row_result by done.
    rewrite Hlen, Nat.eqb_refl. simpl. by apply check_items_ok.
Qed.

Lemma add_row_final kw self :
  result (Table.add_row kw self) = inr tt →
  final (Table.add_row kw self) = with_row self (Row.init_body kw).
Proof.
  destruct (add_row_cases kw self)
    as [[_ ->]|[(_ & msg & ->)|(_ & _ & _ & ->)]]; done.
Qed.

Lemma add_row_final_error kw self :
  result (Table.add_row kw self) ≠ inr tt →
  final (Table.add_row kw self) = self.
Proof.
  destruct (add_row_cases kw self)
    as [[_ ->]|[(_ & msg & ->)|(_ & _ & _ & ->)]]; done.
Qed.

(** ** Names of the schema against names of the call *)

Lemma accepts_known fields item :
  accepts fields item = true → item.1 ∈ map Field.name fields.
Proof.
  unfold accepts. intros H.
  destruct (Table.next_data_type fields item.1) eqn:Hk; [|done].
  destruct (decide (item.1 ∈ map Field.name fields)) as [|Hn]; [done|].
  apply next_data_type_None in Hn. congruence.
Qed.

(** Distinct supplied names, all of them in a schema of the same length:
    the schema has distinct names too, and no other name. *)
Lemma names_pigeonhole (keys names : list string) :
  NoDup keys → length keys = length names → (∀ k, k ∈ keys → k ∈ names) →
  NoDup names ∧ ∀ k, k ∈ names → k ∈ keys.
Proof.
  intros Hnd Hlen Hsub.
  assert (keys ≡ₚ names) as Hperm.
  { apply submseteq_length_Permutation; [by apply NoDup_submseteq | lia]. }
  split; [by rewrite <- Hperm | intros k; by rewrite Hperm].
Qed.

Lemma elem_of_names (fields : list Field.t) k :
  k ∈ map Field.name fields ↔ ∃ f, f ∈ fields ∧ Field.name f = k.
Proof.
  change (map Field.name fields) with (Field.name <$> fields).
  rewrite list_elem_of_fmap. split.
  - intros (f & -> & Hf). by exists f.
  - intros (f & Hf & <-). by exists f.
Qed.

Lemma accepts_all_known self kw :
  forallb (accepts (_fields self)) kw = true →
  ∀ k, k ∈ kw.*1 → k ∈ Table.fields self.
Proof.
  rewrite forallb_forall. intros Hall k (v & Hin)%elem_of_keys.
  apply list_elem_of_In, Hall, accepts_known in Hin. done.
Qed.

(** ** C1 *)

(** C1, as amended. For every table and every call of [add_row] with
    distinct keyword names: the call succeeds iff no supplied name is
    [self], the names of the schema are pairwise distinct, the supplied names
    are exactly the names of the schema, and every supplied value is an
    instance of the type its field declares; a call that succeeds appends the
    row that holds the supplied items in call order; a call that supplies
    the name [self] raises [TypeError] when its arguments are bound; every
    other call that does not succeed raises [ValueError] (the error the
    specification calls SchemaMismatch). *)
Theorem add_row_succeeds_iff (self : TableState.t) (kw : kwargs) :
  NoDup kw.*1 →
  (result (Table.add_row kw self) = inr tt ↔
     ("self" ∉ kw.*1) ∧ NoDup (Table.fields self) ∧ same_names self kw ∧
     well_typed self kw)
  ∧ (result (Table.add_row kw self) = inr tt →
     final (Table.add_row kw self) = with_row self (Row.mk (Dict kw)))
  ∧ ("self" ∈ kw.*1 →
     result (Table.add_row kw self)
     = inl (TypeError (msg_self "Table.add_row")))
  ∧ ("self" ∉ kw.*1 → result (Table.add_row kw self) ≠ inr tt →
     ∃ msg, result (Table.add_row kw self) = inl (ValueError msg)).
Proof.
  intros Hkeys. split; [|split; [|split]].
  - rewrite add_row_ok. split.
    + intros (Hself & Hlen & Hall). split; [done|].
      pose proof (accepts_all_known _ _ Hall) as Hsub.
      destruct (names_pigeonhole kw.*1 (Table.fields self)) as [Hnd Hsup];
        [done | unfold Table.fields; by rewrite length_fmap, length_map
        | done |].
      split; [done|]. split; [intros k; split; auto|].
      intros k v f Hin Hf Hname.
      rewrite forallb_forall in Hall.
      apply list_elem_of_In, Hall in Hin. unfold accepts in Hin. simpl in Hin.
      rewrite <- Hname, (next_data_type_NoDup _ f) in Hin; done.
    + intros (Hself & Hnd & Hsame & Hty). split; [done|]. split.
      * rewrite <- (length_fmap fst kw), <- (length_map Field.name).
        apply Permutation_length, NoDup_Permutation; done.
      * apply forallb_forall. intros [k v] Hin%list_elem_of_In.
        assert (k ∈ Table.fields self) as (f & Hf & Hname)%elem_of_names.
        { apply Hsame, elem_of_keys. by exists v. }
        unfold accepts. simpl.
        rewrite <- Hname, (next_data_type_NoDup _ f) by done.
        by apply (Hty k).
  - intros Hok. rewrite add_row_final by done.
    by rewrite row_init_body_items.
  - intros Hself. by rewrite add_row_self.
  - intros Hself Hfail.
    destruct (add_row_cases kw self)
      as [[Hin _]|[(_ & msg & Heq)|(_ & _ & _ & Heq)]].
    + done.
    + exists msg. by rewrite Heq.
    + by rewrite Heq in Hfail.
Qed.

(** ** C2 *)

(** C2. For every table and every call of [add_row] that raises, the state
    of the table after the call (schema, rows and every other attribute) is
    the state before it. *)
Theorem add_row_failure_no_effect (self : TableState.t) (kw : kwargs) (e : exn) :
  result (Table.add_row kw self) = inl e →
  final (Table.add_row kw self) = self.
Proof.
  intros He. apply add_row_final_error. by rewrite He.
Qed.

(** ** C7 *)

(** C7, as amended. For every table and every call of [add_row] whose
    arguments can be bound (no supplied name is [self]): when the number of
    supplied values differs from the number of schema fields the call raises
    the count error, whatever the supplied names are. For every call: one
    that raises the unknown-field error or the type error for some name was
    made with as many values as the schema has fields; and one that supplies
    the name [self] raises [TypeError] before the count is looked at. *)
Theorem add_row_count_checked_first (self : TableState.t) (kw : kwargs) :
  ("self" ∉ kw.*1 → length kw ≠ length (_fields self) →
   result (Table.add_row kw self) = inl (ValueError Table.msg_count))
  ∧ (∀ k,
       result (Table.add_row kw self) = inl (ValueError (Table.msg_unknown k))
       ∨ result (Table.add_row kw self) = inl (ValueError (Table.msg_type k)) →
       length kw = length (_fields self))
  ∧ ("self" ∈ kw.*1 →
     result (Table.add_row kw self)
     = inl (TypeError (msg_self "Table.add_row"))).
Proof.
  split; [|split].
  - intros Hself Hlen. rewrite add_row_result by done.
    by destruct (Nat.eqb_spec (length kw) (length (_fields self))).
  - intros k Hres. destruct (decide ("self" ∈ kw.*1)) as [Hself|Hself].
    + rewrite add_row_self in Hres by done. by destruct Hres.
    + rewrite add_row_result in Hres by done.
      destruct (Nat.eqb_spec (length kw) (length (_fields self)))
        as [Hlen|Hlen]; [done|].
      simpl in Hres. destruct Hres as [H|H]; discriminate H.
  - intros Hself. by rewrite add_row_self.
Qed.

(** ** C8 *)

Lemma next_data_type_shadow pre f post1 ty post2 k :
  Table.next_data_type
    (pre ++ f :: post1 ++ Field.mk (Field.name f) ty :: post2) k
  = Table.next_data_type (pre ++ f :: post1 ++ post2) k.
Proof.
  induction pre as [|g pre IH]; simpl.
  - destruct (String.eqb_spec (Field.name f) k) as [Heq|Hne]; [done|].
    induction post1 as [|g post1 IH]; simpl.
    + by destruct (String.eqb_spec (Field.name f) k).
    + by rewrite IH.
  - by rewrite IH.
Qed.

(** The loop of [add_row] sees the schema through the lookup only. *)
Lemma check_items_lookup items self1 self2 :
  (∀ k, Table.next_data_type (_fields self1) k
        = Table.next_data_type (_fields self2) k) →
  result (Table.check_items items self1)
  = result (Table.check_items items self2).
Proof.
  intros Hlook. induction items as [|[k v] items IH]; simpl; [done|].
  unfold bind, read; simpl. rewrite Hlook.
  destruct (Table.next_data_type (_fields self2) k) as [ty|]; simpl; [|done].
  destruct (isinstance v ty); simpl; [|done].
  destruct (check_items_pure items self1) as [_ Hc1].
  destruct (check_items_pure items self2) as [_ Hc2].
  destruct (Table.check_items items self1) as [[e1|[]] s1 c1];
    destruct (Table.check_items items self2) as [[e2|[]] s2 c2];
    simpl in *; congruence.
Qed.

(** C8. In a schema where the entry [f] is the first with its name, the
    lookup of that name resolves to the type of [f], whatever entries
    follow; a later entry with the name of [f] is invisible to every lookup;
    and the type such a later entry declares has no influence on what
    [add_row] returns or raises. *)
Theorem duplicate_field_first_wins (pre post : list Field.t) (f : Field.t) :
  Field.name f ∉ map Field.name pre →
  Table.next_data_type (pre ++ f :: post) (Field.name f)
  = Some (Field.data_type f)
  ∧ (∀ post1 post2 ty k,
       Table.next_data_type
         (pre ++ f :: post1 ++ Field.mk (Field.name f) ty :: post2) k
       = Table.next_data_type (pre ++ f :: post1 ++ post2) k)
  ∧ (∀ post1 post2 ty ty' name rows related kw,
       result (Table.add_row kw
         (TableState.mk name
            (pre ++ f :: post1 ++ Field.mk (Field.name f) ty :: post2)
            rows related))
       = result (Table.add_row kw
         (TableState.mk name
            (pre ++ f :: post1 ++ Field.mk (Field.name f) ty' :: post2)
            rows related))).
Proof.
  intros Hpre. split; [by apply next_data_type_first|].
  split; [intros; apply next_data_type_shadow|].
  intros post1 post2 ty ty' name rows related kw.
  destruct (decide ("self" ∈ kw.*1)) as [Hself|Hself].
  { by rewrite !add_row_self. }
  rewrite !add_row_result by done. simpl.
  rewrite !length_app. simpl. rewrite !length_app. simpl.
  destruct (Nat.eqb _ _); simpl; [|done].
  apply check_items_lookup.
  intros k. simpl. by rewrite !next_data_type_shadow.
Qed.

(** ** C10 *)


(** ** Running [find] and [findMany] *)

Lemma find_loop_final pred rows self :
  final (Table.find_loop pred rows self) = self.
Proof.
  induction rows as [|r rows IH]; simpl; [done|].
  unfold bind, call; simpl. by destruct (pred r).
Qed.

Lemma findMany_loop_final pred amount rows acc self :
  final (Table.findMany_loop pred amount rows acc self) = self.
Proof.
  revert acc. induction rows as [|r rows IH]; intros acc; simpl; [done|].
  unfold bind, call; simpl. destruct (pred r); simpl; [|by apply IH].
  destruct (Z.of_nat (length (acc ++ [r])) =? amount); [done | by apply IH].
Qed.

(** The scan of [find] stops at the first match. *)
Lemma find_loop_run pred rows self :
  (Forall (fun x => pred x = false) rows ∧
   result (Table.find_loop pred rows self) = inr None ∧
   calls (Table.find_loop pred rows self) = rows)
  ∨ ∃ pre r post,
      rows = pre ++ r :: post ∧ Forall (fun x => pred x = false) pre ∧
      pred r = true ∧
      result (Table.find_loop pred rows self) = inr (Some r) ∧
      calls (Table.find_loop pred rows self) = pre ++ [r].
Proof.
  induction rows as [|x rows IH]; simpl; [by left|].
  unfold bind, call; simpl. destruct (pred x) eqn:Hx; simpl.
  - right. by exists [], x, rows.
  - destruct IH as [(Hall & Hres & Hcalls)|(pre & r & post & -> & Hpre & Hr & Hres & Hcalls)].
    + left. rewrite Hres, Hcalls. by repeat split; [constructor|..].
    + right. exists (x :: pre), r, post. rewrite Hres, Hcalls.
      by repeat split; [constructor|..].
Qed.

(** With [amount] at most the number of rows already collected the exit
    test of [findMany] never holds: every row is scanned. *)
Lemma findMany_loop_unbounded pred amount rows acc self :
  amount ≤ Z.of_nat (length acc) →
  result (Table.findMany_loop pred amount rows acc self)
  = inr (acc ++ List.filter pred rows)
  ∧ calls (Table.findMany_loop pred amount rows acc self) = rows.
Proof.
  revert acc. induction rows as [|r rows IH]; intros acc Hle; simpl.
  - by rewrite app_nil_r.
  - unfold bind, call; simpl. destruct (pred r) eqn:Hr; simpl.
    + destruct (Z.eqb_spec (Z.of_nat (length (acc ++ [r]))) amount) as [Heq|_].
      { rewrite length_app in Heq. simpl in Heq. lia. }
      destruct (IH (acc ++ [r])) as [Hres Hcalls].
      { rewrite length_app. simpl. lia. }
      rewrite Hres, Hcalls, <- app_assoc. done.
    + destruct (IH acc Hle) as [Hres Hcalls]. by rewrite Hres, Hcalls.
Qed.

(** With [S n] rows still to collect, the scan returns the first [S n]
    matches after those already collected and stops at the last of them. *)
Lemma findMany_loop_bounded pred amount rows self : ∀ n acc,
  amount = Z.of_nat (length acc + S n) →
  result (Table.findMany_loop pred amount rows acc self)
  = inr (acc ++ take (S n) (List.filter pred rows))
  ∧ ∃ unseen,
      rows = calls (Table.findMany_loop pred amount rows acc self) ++ unseen ∧
      List.filter pred (calls (Table.findMany_loop pred amount rows acc self))
      = take (S n) (List.filter pred rows) ∧
      ((length (List.filter pred rows) < S n)%nat ∧ unseen = []
       ∨ (S n ≤ length (List.filter pred rows))%nat ∧
         ∃ pre r,
           calls (Table.findMany_loop pred amount rows acc self) = pre ++ [r] ∧
           pred r = true).
Proof.
  induction rows as [|x rows IH]; intros n acc Hamount; simpl.
  - rewrite app_nil_r. split; [done|]. exists []. repeat split.
    left. split; [lia | done].
  - unfold bind, call; simpl. destruct (pred x) eqn:Hx; simpl.
    + rewrite length_app. simpl.
      destruct (Z.eqb_spec (Z.of_nat (length acc + 1)) amount) as [Heq|Hne].
      * assert (n = 0%nat) as -> by lia. simpl.
        split; [by rewrite take_0|]. exists rows. split; [done|].
        split; [by rewrite take_0|]. right. split; [lia|]. by exists [], x.
      * destruct n as [|n]; [lia|].
        destruct (IH n (acc ++ [x])) as (Hres & unseen & Hrows & Hfilter & Hend).
        { rewrite length_app. simpl. lia. }
        rewrite Hres, <- app_assoc. simpl. split; [done|].
        exists unseen. split; [by rewrite Hrows at 1|].
        split; [by rewrite Hfilter|].
        destruct Hend as [[Hlt ->]|(Hge & pre & r & Hcalls & Hr)].
        -- left. split; [lia | done].
        -- right. split; [lia|]. exists (x :: pre), r. by rewrite Hcalls.
    + destruct (IH n acc Hamount) as (Hres & unseen & Hrows & Hfilter & Hend).
      rewrite Hres. split; [done|].
      exists unseen. split; [by rewrite Hrows at 1|]. split; [done|].
      destruct Hend as [[Hlt ->]|(Hge & pre & r & Hcalls & Hr)].
      * by left.
      * right. split; [done|]. exists (x :: pre), r. by rewrite Hcalls.
Qed.

Lemma find_run pred self :
  Table.find pred self = Table.find_loop pred (_rows self) self.
Proof.
  unfold Table.find, bind, read; simpl.
  by destruct (Table.find_loop pred (_rows self) self).
Qed.

Lemma findMany_run pred amount self :
  Table.findMany pred amount self
  = Table.findMany_loop pred amount (_rows self) [] self.
Proof.
  unfold Table.findMany, bind, read; simpl.
  by destruct (Table.findMany_loop pred amount (_rows self) [] self).
Qed.

(** ** C3 *)

(** C3. For every table, predicate and [k > 0], [findMany(pred, k)] returns
    a list of at most [k] rows, namely the first [k] rows of the table, in
    insertion order, that satisfy the predicate (all of them when fewer than
    [k] do). The predicate is called on a prefix of the rows: on all of them
    when fewer than [k] rows match, and otherwise on the rows up to the
    [k]-th match, which is the last row it is called on. *)
Theorem findMany_limit (self : TableState.t) (pred : Row.t → bool) (k : Z) :
  0 < k →
  ∃ found,
    result (Table.findMany pred k self) = inr found
    ∧ Z.of_nat (length found) ≤ k
    ∧ found = take (Z.to_nat k) (List.filter pred (_rows self))
    ∧ ∃ unseen,
        _rows self = calls (Table.findMany pred k self) ++ unseen
        ∧ List.filter pred (calls (Table.findMany pred k self)) = found
        ∧ (Z.of_nat (length found) < k ∧ unseen = []
           ∨ Z.of_nat (length found) = k ∧
             ∃ pre r, calls (Table.findMany pred k self) = pre ++ [r] ∧
                      pred r = true).
Proof.
  intros Hk. rewrite findMany_run.
  destruct (findMany_loop_bounded pred k (_rows self) self
              (Nat.pred (Z.to_nat k)) [])
    as (Hres & unseen & Hrows & Hfilter & Hend); [simpl; lia|].
  replace (S (Nat.pred (Z.to_nat k))) with (Z.to_nat k) in * by lia.
  simpl in Hres.
  exists (take (Z.to_nat k) (List.filter pred (_rows self))).
  split; [done|]. split; [rewrite length_take; lia|]. split; [done|].
  exists unseen. split; [done|]. split; [done|].
  rewrite length_take.
  destruct Hend as [[Hlt ->]|(Hge & pre & r & Hcalls & Hr)].
  - left. split; [lia | done].
  - right. split; [lia|]. by exists pre, r.
Qed.

(** ** C4 *)

(** C4. For every table and predicate, [findMany(pred, k)] with [k] zero or
    negative calls the predicate on every row of the table, in order, and
    returns exactly the rows that satisfy it, in insertion order. *)
Theorem findMany_unbounded (self : TableState.t) (pred : Row.t → bool) (k : Z) :
  k ≤ 0 →
  result (Table.findMany pred k self) = inr (List.filter pred (_rows self))
  ∧ calls (Table.findMany pred k self) = _rows self.
Proof.
  intros Hk. rewrite findMany_run.
  by apply (findMany_loop_unbounded pred k (_rows self) []).
Qed.

(** ** C5 *)

(** C5. For every table and predicate, [find] returns, and never raises:
    it returns the first row, in insertion order, on which the predicate is
    true, having called the predicate on the rows up to that one only; when
    the predicate is false on every row it returns [None]. *)
Theorem find_first_match (self : TableState.t) (pred : Row.t → bool) :
  ∃ found,
    result (Table.find pred self) = inr found
    ∧ match found with
      | Some r =>
          ∃ pre post,
            _rows self = pre ++ r :: post ∧
            Forall (fun x => pred x = false) pre ∧ pred r = true ∧
            calls (Table.find pred self) = pre ++ [r]
      | None =>
          Forall (fun x => pred x = false) (_rows self) ∧
          calls (Table.find pred self) = _rows self
      end.
Proof.
  rewrite find_run.
  destruct (find_loop_run pred (_rows self) self)
    as [(Hall & Hres & Hcalls)|(pre & r & post & Hrows & Hpre & Hr & Hres & Hcalls)].
  - by exists None.
  - exists (Some r). split; [done|]. by exists pre, post.
Qed.

(** ** C9 *)

(** C9. For every table, predicate and limit, the state of the table after
    [find] and after [findMany] (schema, rows and every other attribute) is
    the state before the call. *)
Theorem find_findMany_read_only (self : TableState.t) (pred : Row.t → bool)
    (limit : Z) :
  final (Table.find pred self) = self
  ∧ final (Table.findMany pred limit self) = self.
Proof.
  rewrite find_run, findMany_run.
  split; [apply find_loop_final | apply findMany_loop_final].
Qed.

(** ** C6 *)

Lemma create_other table_name name w :
  name ≠ table_name →
  Database._tables (Database.self (Database.create table_name w).2) !! name
  = Database._tables (Database.self w) !! name.
Proof. intros Hne. simpl. by rewrite lookup_insert_ne. Qed.

(** [create] builds a new object: the objects already in the store stay. *)
Lemma create_keeps table_name w r table :
  Database.heap w !! r = Some table →
  Database.heap (Database.create table_name w).2 !! r = Some table.
Proof.
  intros Hr. simpl. rewrite lookup_insert_ne; [done|].
  intros <-. apply (is_fresh (dom (Database.heap w))).
  apply elem_of_dom. by exists table.
Qed.

Lemma creates_other others : ∀ w name,
  name ∉ others →
  Database._tables (Database.self (Database.creates others w).2) !! name
  = Database._tables (Database.self w) !! name.
Proof.
  induction others as [|n others IH]; intros w name; simpl; [done|].
  rewrite not_elem_of_cons. intros [Hne Hothers].
  specialize (IH (Database.create n w).2 name Hothers).
  simpl in IH.
  destruct (Database.creates others _) as [tables w2] eqn:Hrun. simpl in *.
  rewrite IH. by rewrite lookup_insert_ne.
Qed.

Lemma creates_keeps others : ∀ w r table,
  Database.heap w !! r = Some table →
  Database.heap (Database.creates others w).2 !! r = Some table.
Proof.
  induction others as [|n others IH]; intros w r table Hr; simpl; [done|].
  specialize (IH (Database.create n w).2 r table (create_keeps n w r table Hr)).
  simpl in IH.
  by destruct (Database.creates others _) as [tables w2] eqn:Hrun.
Qed.

(** C6. For every database and every name: when no table is stored under
    the name, [get] raises [TableNotFoundError] with a message that carries
    the name; when a table is stored under it, [get] returns that very
    reference; and after [create(name)], followed by any calls of [create]
    for other names, [get(name)] returns the reference [create(name)]
    returned, which is a new object (no reference of the store before the
    call) holding the empty table of that name. *)
Theorem get_created_or_missing (w : Database.world) (name : string) :
  (Database._tables (Database.self w) !! name = None →
   Database.get name w
   = inl (TableNotFoundError ("Table '" +:+ name +:+ "' does not exist.")))
  ∧ (∀ table, Database._tables (Database.self w) !! name = Some table →
       Database.get name w = inr table)
  ∧ (∀ others, name ∉ others →
       let created := Database.create name w in
       let w' := snd (Database.creates others (snd created)) in
       Database.get name w' = inr (fst created)
       ∧ (fst created ∉ dom (Database.heap w))
       ∧ Database.heap w' !! fst created = Some (Table.init name)).
Proof.
  split; [|split].
  - intros Habsent. unfold Database.get. by rewrite Habsent.
  - intros table Hpresent. unfold Database.get. by rewrite Hpresent.
  - intros others Hothers created w'. split; [|split].
    + unfold Database.get, w'. rewrite creates_other by done.
      unfold created. simpl. by rewrite lookup_insert_eq.
    + apply is_fresh.
    + apply creates_keeps. unfold created. simpl. apply lookup_insert_eq.
Qed.

(** * The properties at concrete inputs *)

Example users_fields : Table.fields Ex.users = ["name"; "age"].
Proof. reflexivity. Qed.

Example add_ana_rows :
  Table.rows (final (Table.add_row Ex.ana Ex.users)) = [Dict Ex.ana].
Proof. vm_compute. reflexivity. Qed.

Example add_bob_raises :
  result (Table.add_row Ex.bob Ex.users) = inl (ValueError Table.msg_count).
Proof. vm_compute. reflexivity. Qed.

Example add_with_self_raises :
  Table.add_row Ex.with_self Ex.users
  = Outcome (inl (TypeError "Table.add_row() got multiple values for argument 'self'"))
            Ex.users [].
Proof. vm_compute. reflexivity. Qed.

Example people_adults_2 :
  result (Table.findMany Ex.adult 2 Ex.people)
  = inr [Row.mk (Dict Ex.ana); Row.mk (Dict Ex.dan)]
  ∧ calls (Table.findMany Ex.adult 2 Ex.people)
    = [Row.mk (Dict Ex.ana); Row.mk (Dict Ex.cat); Row.mk (Dict Ex.dan)].
Proof. split; vm_compute; reflexivity. Qed.

Example people_adults_1 :
  calls (Table.findMany Ex.adult 1 Ex.people) = [Row.mk (Dict Ex.ana)].
Proof. vm_compute. reflexivity. Qed.

Example people_first_adult :
  result (Table.find Ex.adult Ex.people) = inr (Some (Row.mk (Dict Ex.ana))).
Proof. vm_compute. reflexivity. Qed.

Lemma keys_ana : NoDup Ex.ana.*1.
Proof. apply (bool_decide_unpack _). vm_compute. reflexivity. Defined.

Lemma keys_eve : NoDup Ex.eve.*1.
Proof. apply (bool_decide_unpack _). vm_compute. reflexivity. Defined.

Lemma bound_ana : "self" ∉ Ex.ana.*1.
Proof. apply (bool_decide_unpack _). vm_compute. reflexivity. Defined.


Lemma bound_bob : "self" ∉ Ex.bob.*1.
Proof. apply (bool_decide_unpack _). vm_compute. reflexivity. Defined.

(** [add_row(name="Ana", age=30)] on [users]. *)
Lemma add_row_succeeds_iff_witness :
  NoDup Ex.ana.*1
  ∧ (result (Table.add_row Ex.ana Ex.users) = inr tt ↔
       ("self" ∉ Ex.ana.*1) ∧ NoDup (Table.fields Ex.users) ∧
       same_names Ex.users Ex.ana ∧ well_typed Ex.users Ex.ana)
  ∧ (result (Table.add_row Ex.ana Ex.users) = inr tt →
     final (Table.add_row Ex.ana Ex.users)
     = with_row Ex.users (Row.mk (Dict Ex.ana)))
  ∧ ("self" ∈ Ex.ana.*1 →
     result (Table.add_row Ex.ana Ex.users)
     = inl (TypeError (msg_self "Table.add_row")))
  ∧ ("self" ∉ Ex.ana.*1 → result (Table.add_row Ex.ana Ex.users) ≠ inr tt →
     ∃ msg, result (Table.add_row Ex.ana Ex.users) = inl (ValueError msg)).
Proof.
  split; [exact keys_ana|].
  exact (add_row_succeeds_iff Ex.users Ex.ana keys_ana).
Defined.

(** C1 as stated fails on a schema with a repeated name: the supplied names
    are exactly the names of the schema and the value is an instance of the
    declared type, and [add_row] raises the count error. *)
Lemma add_row_repeated_name_counterexample :
  NoDup Ex.one.*1
  ∧ same_names Ex.twice Ex.one
  ∧ well_typed Ex.twice Ex.one
  ∧ result (Table.add_row Ex.one Ex.twice) = inl (ValueError Table.msg_count)
  ∧ ¬ (result (Table.add_row Ex.one Ex.twice) = inr tt ↔
       same_names Ex.twice Ex.one ∧ well_typed Ex.twice Ex.one).
Proof.
  assert (same_names Ex.twice Ex.one) as Hnames.
  { intros k. unfold Table.fields. simpl. rewrite !elem_of_cons. split.
    - intros [->|Hk]; [by left | by apply elem_of_nil in Hk].
    - intros [->|[->|Hk]]; [by left | by left | by apply elem_of_nil in Hk]. }
  assert (well_typed Ex.twice Ex.one) as Htypes.
  { intros k v f Hin Hf _. simpl in Hin, Hf.
    apply list_elem_of_singleton in Hin as [= -> ->].
    apply elem_of_cons in Hf as [->|Hf]; [done|].
    by apply list_elem_of_singleton in Hf as ->. }
  assert (result (Table.add_row Ex.one Ex.twice)
          = inl (ValueError Table.msg_count)) as Hres
    by (vm_compute; reflexivity).
  split; [apply (bool_decide_unpack _); vm_compute; reflexivity|].
  split; [done|]. split; [done|]. split; [done|].
  intros [_ Hiff]. specialize (Hiff (conj Hnames Htypes)). congruence.
Qed.

(** [add_row(name="Bob")] on [users]. *)
Lemma add_row_failure_no_effect_witness :
  result (Table.add_row Ex.bob Ex.users) = inl (ValueError Table.msg_count)
  ∧ final (Table.add_row Ex.bob Ex.users) = Ex.users.
Proof.
  assert (result (Table.add_row Ex.bob Ex.users)
          = inl (ValueError Table.msg_count)) as Hres
    by (vm_compute; reflexivity).
  split; [exact Hres|].
  exact (add_row_failure_no_effect Ex.users Ex.bob
           (ValueError Table.msg_count) Hres).
Defined.

(** [findMany(adult, 2)] on [people]. *)
Lemma findMany_limit_witness :
  0 < 2
  ∧ ∃ found,
      result (Table.findMany Ex.adult 2 Ex.people) = inr found
      ∧ Z.of_nat (length found) ≤ 2
      ∧ found = take (Z.to_nat 2) (List.filter Ex.adult (_rows Ex.people))
      ∧ ∃ unseen,
          _rows Ex.people = calls (Table.findMany Ex.adult 2 Ex.people) ++ unseen
          ∧ List.filter Ex.adult (calls (Table.findMany Ex.adult 2 Ex.people))
            = found
          ∧ (Z.of_nat (length found) < 2 ∧ unseen = []
             ∨ Z.of_nat (length found) = 2 ∧
               ∃ pre r,
                 calls (Table.findMany Ex.adult 2 Ex.people) = pre ++ [r] ∧
                 Ex.adult r = true).
Proof.
  split; [reflexivity|].
  apply (findMany_limit Ex.people Ex.adult 2). reflexivity.
Defined.

(** [findMany(adult, -1)] on [people]. *)
Lemma findMany_unbounded_witness :
  -1 ≤ 0
  ∧ result (Table.findMany Ex.adult (-1) Ex.people)
    = inr (List.filter Ex.adult (_rows Ex.people))
  ∧ calls (Table.findMany Ex.adult (-1) Ex.people) = _rows Ex.people.
Proof.
  assert (-1 ≤ 0) as H by (intros [=]).
  split; [exact H|].
  exact (findMany_unbounded Ex.people Ex.adult (-1) H).
Defined.

(** [db = Database(); db.get("orders")], and [db.create("users")] followed
    by [db.create("orders")] and [db.get("users")]. *)
Lemma get_created_or_missing_witness :
  Database.get "orders" Database.init
  = inl (TableNotFoundError "Table 'orders' does not exist.")
  ∧ (let created := Database.create "users" Database.init in
     let w' := snd (Database.creates ["orders"] (snd created)) in
     Database.get "users" w' = inr (fst created)
     ∧ (fst created ∉ dom (Database.heap Database.init))
     ∧ Database.heap w' !! fst created = Some (Table.init "users")).
Proof.
  split.
  - apply (get_created_or_missing Database.init "orders"). reflexivity.
  - apply (get_created_or_missing Database.init "users").
    apply (bool_decide_unpack _). vm_compute. reflexivity.
Defined.

(** C7 as stated fails on a call that supplies the name [self]:
    [add_row(self=1)] on a new table supplies one value for a schema without
    fields and raises [TypeError], not the count error. *)
Lemma add_row_self_count_counterexample :
  length [("self", VInt 1)] ≠ length (_fields (Table.init "t"))
  ∧ result (Table.add_row [("self", VInt 1)] (Table.init "t"))
    = inl (TypeError "Table.add_row() got multiple values for argument 'self'")
  ∧ result (Table.add_row [("self", VInt 1)] (Table.init "t"))
    ≠ inl (ValueError Table.msg_count).
Proof.
  split; [simpl; intros [=]|].
  split; [vm_compute; reflexivity|]. vm_compute. intros [=].
Qed.

(** [add_row(name="Bob")] on [users] raises the count error, and
    [add_row(name="Ana", age="x")], which raises the type error, has as many
    values as the schema has fields. *)
Lemma add_row_count_checked_first_witness :
  ("self" ∉ Ex.bob.*1)
  ∧ result (Table.add_row Ex.bob Ex.users) = inl (ValueError Table.msg_count)
  ∧ length Ex.bad_age = length (_fields Ex.users).
Proof.
  split; [exact bound_bob|]. split.
  - apply (add_row_count_checked_first Ex.users Ex.bob);
      [exact bound_bob | simpl; intros [=]].
  - apply (add_row_count_checked_first Ex.users Ex.bad_age) with (k := "age").
    right. vm_compute. reflexivity.
Defined.

(** The schema [a: int, a: str]: the name [a] resolves to [int]. *)
Lemma duplicate_field_first_wins_witness :
  Table.next_data_type [Field.mk "a" int; Field.mk "a" str] "a" = Some int.
Proof.
  apply (duplicate_field_first_wins [] [Field.mk "a" str] (Field.mk "a" int)).
  simpl. apply not_elem_of_nil.
Defined.



(** * Further properties of the code *)

(** ** Building the schema: [add_field], [add_fields], [fields] *)

Lemma schema_entry_names (fields_dict : list (string * pytype)) :
  map Field.name (map (fun item => Field.mk item.1 item.2) fields_dict)
  = fields_dict.*1.
Proof.
  induction fields_dict as [|[n ty] d IH]; simpl; [done|]. by rewrite IH.
Qed.

Lemma add_fields_run (fields_dict : list (string * pytype)) : ∀ self,
  Table.add_fields fields_dict self
  = Outcome (inr tt)
      (TableState.mk (name self)
         (_fields self ++ map (fun item => Field.mk item.1 item.2) fields_dict)
         (_rows self) (_related_tables self))
      [].
Proof.
  induction fields_dict as [|[n ty] d IH]; intros self; simpl.
  - rewrite app_nil_r. by destruct self.
  - unfold bind, Table.add_field, update; simpl. rewrite IH. simpl.
    by rewrite <- app_assoc.
Qed.

(** X1. [add_fields] never raises and calls no condition; it appends one schema
    entry per item of the dict, in the iteration order of the dict, after
    the entries already there, and changes nothing else of the table; the
    property [fields] then lists the old names followed by the keys of the
    dict. *)
Theorem add_fields_appends (fields_dict : list (string * pytype))
    (self : TableState.t) :
  result (Table.add_fields fields_dict self) = inr tt
  ∧ calls (Table.add_fields fields_dict self) = []
  ∧ final (Table.add_fields fields_dict self)
    = TableState.mk (name self)
        (_fields self ++ map (fun item => Field.mk item.1 item.2) fields_dict)
        (_rows self) (_related_tables self)
  ∧ Table.fields (final (Table.add_fields fields_dict self))
    = Table.fields self ++ fields_dict.*1.
Proof.
  rewrite add_fields_run. simpl. repeat split.
  unfold Table.fields. simpl. by rewrite map_app, schema_entry_names.
Qed.

(** ** Building a row: [Row.__init__], [Row.add_field] *)

Lemma dict_lookup_is_Some (kw : kwargs) k :
  is_Some (Dict kw !! k) ↔ k ∈ kw.*1.
Proof. apply assoc_get_is_Some. Qed.

Lemma dict_lookup_Some (kw : kwargs) k v :
  NoDup kw.*1 → Dict kw !! k = Some v ↔ (k, v) ∈ kw.
Proof. apply assoc_get_Some. Qed.

Lemma dict_lookup_None (kw : kwargs) k : Dict kw !! k = None ↔ k ∉ kw.*1.
Proof. apply assoc_get_None. Qed.

(** X2. A call of [Row] with distinct keyword names, none of them [self],
    builds the row whose dict holds the supplied items in call order: a
    name maps to a value iff that pair was supplied, and a name that was not
    supplied is not a key. A call that supplies the name [self] raises
    [TypeError] and builds nothing. *)
Theorem row_init_dict (kw : kwargs) :
  NoDup kw.*1 →
  ("self" ∈ kw.*1 → Row.init kw = inl (TypeError (msg_self "Row.__init__")))
  ∧ ("self" ∉ kw.*1 →
     Row.init kw = inr (Row.mk (Dict kw))
     ∧ (∀ k v, Row.fields (Row.mk (Dict kw)) !! k = Some v ↔ (k, v) ∈ kw)
     ∧ (∀ k, Row.fields (Row.mk (Dict kw)) !! k = None ↔ k ∉ kw.*1)).
Proof.
  intros Hkeys. split; [apply row_init_self|].
  intros Hself. split; [by rewrite row_init_bound, row_init_body_items|].
  split.
  - intros k v. by apply dict_lookup_Some.
  - intros k. apply dict_lookup_None.
Qed.


(** ** More on [add_row] *)

(** The keyword arguments of a successful call name every field of the
    schema. *)
Lemma add_row_ok_names kw self :
  NoDup kw.*1 → result (Table.add_row kw self) = inr tt →
  ∀ k, k ∈ kw.*1 ↔ k ∈ Table.fields self.
Proof.
  intros Hkeys (_ & Hlen & Hall)%add_row_ok k.
  pose proof (accepts_all_known _ _ Hall) as Hsub.
  destruct (names_pigeonhole kw.*1 (Table.fields self)) as [_ Hsup];
    [done | unfold Table.fields; by rewrite length_fmap, length_map | done |].
  split; auto.
Qed.

Lemma add_row_final_items kw self :
  NoDup kw.*1 → result (Table.add_row kw self) = inr tt →
  final (Table.add_row kw self) = with_row self (Row.mk (Dict kw)).
Proof.
  intros Hkeys Hok. by rewrite add_row_final, row_init_body_items.
Qed.

(** X4. The order in which the caller writes the keyword arguments does not
    decide whether [add_row] succeeds: two calls whose keyword arguments are
    a reordering of one another succeed together. When they succeed, each
    appends to the same table the row that holds its items in its own call
    order, and the two rows give the same value for every name; when they do
    not, both leave the table as it was. *)
Theorem add_row_keyword_order (self : TableState.t) (kw kw' : kwargs) :
  NoDup kw.*1 → kw ≡ₚ kw' →
  (result (Table.add_row kw self) = inr tt ↔
   result (Table.add_row kw' self) = inr tt)
  ∧ (result (Table.add_row kw self) = inr tt →
     final (Table.add_row kw self) = with_row self (Row.mk (Dict kw))
     ∧ final (Table.add_row kw' self) = with_row self (Row.mk (Dict kw'))
     ∧ ∀ k, Row.fields (Row.mk (Dict kw)) !! k
            = Row.fields (Row.mk (Dict kw')) !! k)
  ∧ (result (Table.add_row kw self) ≠ inr tt →
     final (Table.add_row kw self) = self
     ∧ final (Table.add_row kw' self) = self).
Proof.
  intros Hkeys Hperm.
  assert (NoDup kw'.*1) as Hkeys' by (by rewrite <- Hperm).
  assert (result (Table.add_row kw self) = inr tt ↔
          result (Table.add_row kw' self) = inr tt) as Hiff.
  { rewrite !add_row_ok, !forallb_forall, (Permutation_length Hperm).
    split; intros (Hself & Hlen & Hall).
    - split; [by rewrite <- Hperm|]. split; [done|]. intros item Hin.
      apply Hall. apply list_elem_of_In. apply list_elem_of_In in Hin.
      by rewrite Hperm.
    - split; [by rewrite Hperm|]. split; [done|]. intros item Hin.
      apply Hall. apply list_elem_of_In. apply list_elem_of_In in Hin.
      by rewrite <- Hperm. }
  split; [done|]. split.
  - intros Hok. split; [by apply add_row_final_items|].
    split; [apply add_row_final_items; [done | by apply Hiff]|].
    intros k. simpl. apply option_eq. intros v.
    rewrite !dict_lookup_Some by done. by rewrite Hperm.
  - intros Hfail. split; [by apply add_row_final_error|].
    apply add_row_final_error. intros Hok'. by apply Hfail, Hiff.
Qed.

Lemma check_items_first_offender self pre k v post :
  forallb (accepts (_fields self)) pre = true →
  accepts (_fields self) (k, v) = false →
  result (Table.check_items (pre ++ (k, v) :: post) self)
  = inl (ValueError
           (match Table.next_data_type (_fields self) k with
            | None => Table.msg_unknown k
            | Some _ => Table.msg_type k
            end)).
Proof.
  intros Hpre Hbad. induction pre as [|[k' v'] pre IH]; simpl in *.
  - unfold bind, read, accepts in *; simpl in *.
    destruct (Table.next_data_type (_fields self) k) as [ty|]; simpl; [|done].
    by rewrite Hbad.
  - apply andb_prop in Hpre as [Hhead Hpre]. specialize (IH Hpre).
    unfold bind, read, accepts in *; simpl in *.
    destruct (Table.next_data_type (_fields self) k') as [ty'|]; simpl;
      [|done].
    rewrite Hhead. simpl.
    destruct (Table.check_items (pre ++ (k, v) :: post) self)
      as [[e|[]] s c]; simpl in *; congruence.
Qed.

(** X5. In a call whose arguments can be bound (no supplied name is [self])
    and that supplies as many values as the schema has fields, the error
    [add_row] raises is decided by the first keyword argument, in call
    order, that fails its test: the unknown-field error for its name when
    the schema has no entry of that name, the type error for its name
    otherwise; the arguments written after it are not looked at. *)
Theorem add_row_first_offender (self : TableState.t) (pre post : kwargs)
    (k : string) (v : value) :
  "self" ∉ (pre ++ (k, v) :: post).*1 →
  length (pre ++ (k, v) :: post) = length (_fields self) →
  forallb (accepts (_fields self)) pre = true →
  accepts (_fields self) (k, v) = false →
  result (Table.add_row (pre ++ (k, v) :: post) self)
  = inl (ValueError
           (match Table.next_data_type (_fields self) k with
            | None => Table.msg_unknown k
            | Some _ => Table.msg_type k
            end))
  ∧ ∀ post', length post' = length post → "self" ∉ post'.*1 →
      result (Table.add_row (pre ++ (k, v) :: post') self)
      = result (Table.add_row (pre ++ (k, v) :: post) self).
Proof.
  intros Hself Hlen Hpre Hbad.
  rewrite fmap_app, elem_of_app, fmap_cons, elem_of_cons in Hself.
  assert (∀ post', length post' = length post → "self" ∉ post'.*1 →
    result (Table.add_row (pre ++ (k, v) :: post') self)
    = inl (ValueError
             (match Table.next_data_type (_fields self) k with
              | None => Table.msg_unknown k
              | Some _ => Table.msg_type k
              end))) as Hany.
  { intros post' Hpost' Hself'. rewrite add_row_result.
    - rewrite length_app in *. simpl in *. rewrite Hpost', Hlen, Nat.eqb_refl.
      simpl. by apply check_items_first_offender.
    - rewrite fmap_app, elem_of_app, fmap_cons, elem_of_cons. tauto. }
  split; [apply Hany; [done | tauto]|].
  intros post' Hpost' Hself'. rewrite (Hany post') by done.
  rewrite (Hany post); [done | done | tauto].
Qed.

(** X6. On a table whose schema is empty, [add_row] succeeds exactly for the
    call without keyword arguments, which appends a row with an empty dict;
    every other call raises: [TypeError] when it supplies the name [self],
    the count error otherwise. *)
Theorem add_row_empty_schema (self : TableState.t) (kw : kwargs) :
  _fields self = [] →
  (kw = [] →
   result (Table.add_row kw self) = inr tt
   ∧ Table.rows (final (Table.add_row kw self)) = Table.rows self ++ [Dict []])
  ∧ (kw ≠ [] →
     result (Table.add_row kw self)
     = inl (if bool_decide ("self" ∈ kw.*1)
            then TypeError (msg_self "Table.add_row")
            else ValueError Table.msg_count)).
Proof.
  intros Hempty. split.
  - intros ->. rewrite add_row_run, Hempty by apply not_elem_of_nil. simpl.
    split; [done|]. unfold Table.rows. simpl. by rewrite map_app.
  - intros Hkw. case_bool_decide as Hself.
    + by rewrite add_row_self.
    + rewrite add_row_result, Hempty by done. by destruct kw.
Qed.

(** ** A schema declared from a dict *)

Lemma next_data_type_entries (fields_dict : list (string * pytype)) k ty :
  NoDup fields_dict.*1 →
  (k, ty) ∈ fields_dict ↔
  Table.next_data_type
    (map (fun item => Field.mk item.1 item.2) fields_dict) k = Some ty.
Proof.
  intros Hnd. split.
  - intros Hin.
    apply (next_data_type_NoDup _ (Field.mk k ty)).
    + by rewrite schema_entry_names.
    + change ((fun item => Field.mk item.1 item.2) (k, ty)
              ∈ (fun item => Field.mk item.1 item.2) <$> fields_dict).
      by apply list_elem_of_fmap_2.
  - intros (f & Hf & Hname & Hty)%next_data_type_Some.
    change (f ∈ (fun item : string * pytype => Field.mk item.1 item.2)
                <$> fields_dict) in Hf.
    apply list_elem_of_fmap in Hf as ([k' ty'] & -> & Hin). simpl in *.
    by subst.
Qed.

(** X7. A table created empty and given its schema by [add_fields] from a
    dict has pairwise distinct field names, and the type [add_row] expects
    for a name is the type the dict gives it. When no key of the dict is
    [self], [add_row] succeeds on every call that supplies, in any order,
    exactly the keys of the dict with values that are instances of the types
    the dict gives; when a key of the dict is [self], no call of [add_row]
    succeeds. *)
Theorem dict_schema_accepts (table_name : string)
    (fields_dict : list (string * pytype)) (kw : kwargs) :
  NoDup fields_dict.*1 →
  let self := final (Table.add_fields fields_dict (Table.init table_name)) in
  NoDup (Table.fields self)
  ∧ (∀ k ty, Table.next_data_type (_fields self) k = Some ty ↔
             (k, ty) ∈ fields_dict)
  ∧ ("self" ∉ fields_dict.*1 →
     NoDup kw.*1 → kw.*1 ≡ₚ fields_dict.*1 →
     (∀ k v ty, (k, v) ∈ kw → (k, ty) ∈ fields_dict → isinstance v ty = true) →
     result (Table.add_row kw self) = inr tt)
  ∧ ("self" ∈ fields_dict.*1 →
     NoDup kw.*1 → result (Table.add_row kw self) ≠ inr tt).
Proof.
  intros Hnd self.
  assert (self = TableState.mk table_name
                   (map (fun item => Field.mk item.1 item.2) fields_dict) [] ∅)
    as Hself by (unfold self; by rewrite add_fields_run).
  split; [|split; [|split]].
  - rewrite Hself. unfold Table.fields. cbn [_fields].
    by rewrite schema_entry_names.
  - rewrite Hself. intros k ty. symmetry. by apply next_data_type_entries.
  - rewrite Hself. intros Hbound Hkeys Hperm Htypes. apply add_row_ok.
    cbn [_fields]. split; [by rewrite Hperm|]. split.
    + rewrite length_map, <- (length_fmap fst kw),
        <- (length_fmap fst fields_dict).
      by apply Permutation_length.
    + apply forallb_forall. intros [k v] Hin%list_elem_of_In.
      assert (k ∈ fields_dict.*1) as ([k' ty] & Hk & Hty)%list_elem_of_fmap.
      { rewrite <- Hperm. apply elem_of_keys. by exists v. }
      simpl in Hk. subst k'. unfold accepts. simpl.
      rewrite (proj1 (next_data_type_entries fields_dict k ty Hnd) Hty).
      by apply (Htypes k v ty).
  - intros Hfield Hkeys Hok.
    pose proof (add_row_ok_names kw self Hkeys Hok "self") as Hnames.
    apply add_row_ok in Hok as (Hbound & _). apply Hbound, Hnames.
    rewrite Hself. unfold Table.fields. cbn [_fields].
    by rewrite schema_entry_names.
Qed.

(** ** Rows against the schema *)

Lemma row_init_conforms kw self :
  NoDup kw.*1 → result (Table.add_row kw self) = inr tt →
  conforms (_fields self) (Row.mk (Dict kw)).
Proof.
  intros Hkeys Hok. split.
  - intros k. simpl. rewrite dict_lookup_is_Some. by apply add_row_ok_names.
  - intros k v Hk. simpl in Hk.
    apply add_row_ok in Hok as (_ & _ & Hall). rewrite forallb_forall in Hall.
    apply Hall, list_elem_of_In. by apply dict_lookup_Some.
Qed.

Lemma rows_conform_add_row self kw :
  NoDup kw.*1 → rows_conform self →
  rows_conform (final (Table.add_row kw self)).
Proof.
  intros Hkeys Hconf.
  destruct (add_row_cases kw self)
    as [[_ Heq]|[(_ & msg & Heq)|(Hb & Hl & Ha & Heq)]].
  - by rewrite Heq.
  - by rewrite Heq.
  - assert (result (Table.add_row kw self) = inr tt) as Hok by (by rewrite Heq).
    rewrite add_row_final_items by done. unfold rows_conform, with_row. simpl.
    apply Forall_app. split; [done|].
    apply Forall_singleton. by apply row_init_conforms.
Qed.

(** X8. The rows of a table conform to its schema as long as the schema is not
    extended once rows exist: a new table has no row; [add_field] and
    [add_fields] on a table without rows leave it without rows; and
    [add_row], whether it succeeds or raises, keeps every row conforming,
    the appended one included. *)
Theorem rows_conform_kept (self : TableState.t) :
  (∀ table_name, rows_conform (Table.init table_name))
  ∧ (_rows self = [] →
     ∀ field_name data_type fields_dict,
       rows_conform (final (Table.add_field field_name data_type self))
       ∧ rows_conform (final (Table.add_fields fields_dict self)))
  ∧ (rows_conform self →
     ∀ kw, NoDup kw.*1 → rows_conform (final (Table.add_row kw self))).
Proof.
  split; [|split].
  - intros table_name. apply Forall_nil_2.
  - intros Hrows field_name data_type fields_dict. split.
    + unfold rows_conform. simpl. rewrite Hrows. apply Forall_nil_2.
    + unfold rows_conform. rewrite add_fields_run. simpl. rewrite Hrows.
      apply Forall_nil_2.
  - intros Hconf kw Hkeys. by apply rows_conform_add_row.
Qed.

(** X9. [add_field] does not look at the rows: when a name that the schema
    does not have is added to a table whose rows conform, no row of the
    table has that name as a key afterwards, whereas every row that
    [add_row] appends from then on has it. *)
Theorem add_field_after_rows (self : TableState.t) (field_name : string)
    (data_type : pytype) :
  rows_conform self → field_name ∉ Table.fields self →
  let self' := final (Table.add_field field_name data_type self) in
  _rows self' = _rows self
  ∧ (∀ row, row ∈ _rows self' → Row.fields row !! field_name = None)
  ∧ (∀ kw, NoDup kw.*1 → result (Table.add_row kw self') = inr tt →
       Row.init kw = inr (Row.mk (Dict kw))
       ∧ _rows (final (Table.add_row kw self'))
         = _rows self' ++ [Row.mk (Dict kw)]
       ∧ is_Some (Row.fields (Row.mk (Dict kw)) !! field_name)).
Proof.
  intros Hconf Hnew self'. split; [done|]. split.
  - intros row Hrow. simpl in Hrow.
    unfold rows_conform in Hconf. rewrite Forall_forall in Hconf.
    destruct (Hconf row Hrow) as [Hkeys _].
    destruct (Row.fields row !! field_name) as [v|] eqn:Hv; [|done].
    destruct Hnew. apply Hkeys. by exists v.
  - intros kw Hkeys Hok. split; [|split].
    + apply add_row_ok in Hok as (Hbound & _).
      by rewrite row_init_bound, row_init_body_items.
    + by rewrite add_row_final_items.
    + apply dict_lookup_is_Some.
      apply (add_row_ok_names kw self' Hkeys Hok).
      unfold Table.fields, self'. simpl. rewrite map_app.
      apply elem_of_app. right. apply list_elem_of_here.
Qed.

(** ** Insert, then look up *)

(** X10. After a successful [add_row], the row that holds the supplied items
    is the last row of the table, and the property [rows] lists the dicts it
    listed before followed by the dict of the supplied items; [find] with a
    condition that holds of the new row returns a row of which the condition
    holds, and returns the new row itself when the condition holds of no
    earlier row; [findMany] without limit returns what it returned before
    followed by the new row. *)
Theorem add_row_then_find (self : TableState.t) (kw : kwargs)
    (pred : Row.t → bool) :
  NoDup kw.*1 →
  result (Table.add_row kw self) = inr tt →
  pred (Row.mk (Dict kw)) = true →
  let self' := final (Table.add_row kw self) in
  Row.init kw = inr (Row.mk (Dict kw))
  ∧ _rows self' = _rows self ++ [Row.mk (Dict kw)]
  ∧ Table.rows self' = Table.rows self ++ [Dict kw]
  ∧ (∃ r, result (Table.find pred self') = inr (Some r) ∧ pred r = true
          ∧ (Forall (fun x => pred x = false) (_rows self) →
             r = Row.mk (Dict kw)))
  ∧ result (Table.findMany pred 0 self')
    = inr (List.filter pred (_rows self) ++ [Row.mk (Dict kw)]).
Proof.
  intros Hkeys Hok Hpred self'. unfold self'.
  rewrite add_row_final_items by done.
  split; [|split; [done|split; [|split]]].
  - apply add_row_ok in Hok as (Hbound & _).
    by rewrite row_init_bound, row_init_body_items.
  - unfold Table.rows, with_row. simpl. by rewrite map_app.
  - rewrite find_run. unfold with_row. cbn [_rows].
    destruct (find_loop_run pred (_rows self ++ [Row.mk (Dict kw)])
                (TableState.mk (name self) (_fields self)
                   (_rows self ++ [Row.mk (Dict kw)]) (_related_tables self)))
      as [(Hall & _)|(pre & r & post & Hrows & Hpre & Hr & Hres & _)].
    + apply Forall_app in Hall as [_ Hlast].
      rewrite Forall_singleton in Hlast. congruence.
    + exists r. split; [done|]. split; [done|]. intros Hold.
      assert (r ∈ _rows self ++ [Row.mk (Dict kw)]) as Hin.
      { rewrite Hrows. apply elem_of_app. right. apply list_elem_of_here. }
      apply elem_of_app in Hin as [Hin|Hin%list_elem_of_singleton]; [|done].
      rewrite Forall_forall in Hold. specialize (Hold r Hin). simpl in Hold.
      congruence.
  - rewrite findMany_run. unfold with_row. cbn [_rows].
    destruct (findMany_loop_unbounded pred 0
                (_rows self ++ [Row.mk (Dict kw)]) []
                (TableState.mk (name self) (_fields self)
                   (_rows self ++ [Row.mk (Dict kw)]) (_related_tables self)))
      as [Hres _]; [done|].
    rewrite Hres. simpl. rewrite List.filter_app. simpl. by rewrite Hpred.
Qed.

(** ** [find] against [findMany] *)

Lemma find_loop_findMany_1 pred rows self :
  ∃ found,
    result (Table.find_loop pred rows self) = inr found
    ∧ result (Table.findMany_loop pred 1 rows [] self)
      = inr (option_list found)
    ∧ calls (Table.findMany_loop pred 1 rows [] self)
      = calls (Table.find_loop pred rows self).
Proof.
  induction rows as [|x rows IH]; simpl.
  - by exists None.
  - unfold bind, call; simpl. destruct (pred x); simpl.
    + by exists (Some x).
    + destruct IH as (found & Hfind & Hmany & Hcalls).
      exists found. by rewrite Hfind, Hmany, Hcalls.
Qed.

(** X11. [find] is [findMany] with limit 1: [findMany(condition, 1)] returns the
    one-element list of the row [find(condition)] returns, or the empty list
    when [find] returns [None], and both call the condition on the same
    rows. *)
Theorem find_is_findMany_1 (self : TableState.t) (pred : Row.t → bool) :
  ∃ found,
    result (Table.find pred self) = inr found
    ∧ result (Table.findMany pred 1 self) = inr (option_list found)
    ∧ calls (Table.findMany pred 1 self) = calls (Table.find pred self).
Proof.
  rewrite find_run, findMany_run. apply find_loop_findMany_1.
Qed.

(** X12. A limit only cuts the result short: for [k > 0], [findMany(condition, k)]
    returns the first [k] rows of what [findMany(condition)] returns without
    limit, all of it when that has at most [k] rows, and calls the condition
    on a prefix of the rows the call without limit calls it on. *)
Theorem findMany_limit_prefix (self : TableState.t) (pred : Row.t → bool)
    (k : Z) :
  0 < k →
  ∃ every,
    result (Table.findMany pred 0 self) = inr every
    ∧ result (Table.findMany pred k self) = inr (take (Z.to_nat k) every)
    ∧ (Z.of_nat (length every) ≤ k →
       result (Table.findMany pred k self) = inr every)
    ∧ calls (Table.findMany pred k self)
      `prefix_of` calls (Table.findMany pred 0 self).
Proof.
  intros Hk. rewrite !findMany_run.
  destruct (findMany_loop_unbounded pred 0 (_rows self) [] self)
    as [Hall Hcalls]; [done|].
  destruct (findMany_loop_bounded pred k (_rows self) self
              (Nat.pred (Z.to_nat k)) [])
    as (Hres & unseen & Hrows & _); [simpl; lia|].
  replace (S (Nat.pred (Z.to_nat k))) with (Z.to_nat k) in * by lia.
  simpl in Hall, Hres.
  exists (List.filter pred (_rows self)).
  split; [done|]. split; [done|]. split.
  - intros Hshort. rewrite Hres. f_equal. apply take_ge. lia.
  - rewrite Hcalls. by exists unseen.
Qed.

(** ** What the methods of [Table] leave alone *)

Lemma keeps_name_add_fields fields_dict :
  keeps_name (Table.add_fields fields_dict).
Proof. intros self. by rewrite add_fields_run. Qed.

Lemma keeps_name_add_row kw : keeps_name (Table.add_row kw).
Proof.
  intros self.
  destruct (add_row_cases kw self)
    as [[_ ->]|[(_ & msg & ->)|(_ & _ & _ & ->)]]; done.
Qed.

Lemma keeps_name_find pred : keeps_name (Table.find pred).
Proof. intros self. by rewrite find_run, find_loop_final. Qed.

Lemma keeps_name_findMany pred amount :
  keeps_name (Table.findMany pred amount).
Proof. intros self. by rewrite findMany_run, findMany_loop_final. Qed.

(** X13. No method of [Table] changes the name of the table or its related
    tables. [add_field] and [add_fields] leave the rows alone and keep the
    schema entries already there, in place; [add_row] leaves the schema
    alone and keeps the rows already there, in place, adding at most one
    after them. *)
Theorem table_methods_frame (self : TableState.t) :
  (∀ field_name data_type,
     let self' := final (Table.add_field field_name data_type self) in
     name self' = name self ∧ _related_tables self' = _related_tables self
     ∧ _rows self' = _rows self ∧ _fields self `prefix_of` _fields self')
  ∧ (∀ fields_dict,
       let self' := final (Table.add_fields fields_dict self) in
       name self' = name self ∧ _related_tables self' = _related_tables self
       ∧ _rows self' = _rows self ∧ _fields self `prefix_of` _fields self')
  ∧ (∀ kw,
       let self' := final (Table.add_row kw self) in
       name self' = name self ∧ _related_tables self' = _related_tables self
       ∧ _fields self' = _fields self
       ∧ (_rows self' = _rows self ∨ ∃ row, _rows self' = _rows self ++ [row])).
Proof.
  split; [|split].
  - intros field_name data_type self'. simpl. repeat split.
    by exists [Field.mk field_name data_type].
  - intros fields_dict self'. unfold self'. rewrite add_fields_run. simpl.
    repeat split. by eexists.
  - intros kw self'. unfold self'.
    destruct (add_row_cases kw self)
      as [[_ ->]|[(_ & msg & ->)|(_ & _ & _ & ->)]]; simpl.
    + by repeat split; left.
    + by repeat split; left.
    + repeat split. right. by eexists.
Qed.

(** ** More on [Database] *)

(** X14. [create] on a name that already has a table never raises and replaces
    it: [get] then returns a new, empty table, different from the one stored
    before; the old table object is still in the store, unchanged, but no
    longer reachable under that name; and what [get] returns for any other
    name is what it returned before. *)
Theorem create_replaces (w : Database.world) (table_name : string)
    (old : ref) (old_table : TableState.t) :
  Database._tables (Database.self w) !! table_name = Some old →
  Database.heap w !! old = Some old_table →
  let created := Database.create table_name w in
  fst created ≠ old
  ∧ Database.get table_name (snd created) = inr (fst created)
  ∧ Database.heap (snd created) !! fst created = Some (Table.init table_name)
  ∧ Database.heap (snd created) !! old = Some old_table
  ∧ ∀ other, other ≠ table_name →
      Database.get other (snd created) = Database.get other w.
Proof.
  intros Hold Hheap created.
  assert (fst created ≠ old) as Hne.
  { intros Heq. apply (is_fresh (dom (Database.heap w))).
    apply elem_of_dom. exists old_table. by rewrite <- Heq in Hheap. }
  split; [done|]. split; [|split; [|split]].
  - unfold Database.get. simpl. by rewrite lookup_insert_eq.
  - simpl. by rewrite lookup_insert_eq.
  - by apply create_keeps.
  - intros other Hother. unfold Database.get. simpl.
    by rewrite lookup_insert_ne.
Qed.

Lemma names_agree_init : names_agree Database.init.
Proof. intros n r. simpl. by rewrite lookup_empty. Qed.

Lemma names_agree_create table_name w :
  names_agree w → names_agree (snd (Database.create table_name w)).
Proof.
  intros Hw n r. simpl. destruct (decide (table_name = n)) as [->|Hne].
  - rewrite lookup_insert_eq. intros [= <-].
    exists (Table.init n). by rewrite lookup_insert_eq.
  - rewrite lookup_insert_ne by done. intros Hn.
    destruct (Hw n r Hn) as (self & Hself & Hname).
    exists self. split; [|done]. by apply create_keeps.
Qed.

Lemma names_agree_on_table {A} (m : M A) table w o w' :
  keeps_name m → names_agree w → on_table table m w = Some (o, w') →
  names_agree w'.
Proof.
  intros Hm Hw Hrun n r. unfold on_table in Hrun.
  destruct (Database.heap w !! table) as [self|] eqn:Hself; [|done].
  injection Hrun as <- <-. simpl. intros Hn.
  destruct (Hw n r Hn) as (self' & Hself' & Hname).
  destruct (decide (table = r)) as [->|Hne].
  - rewrite lookup_insert_eq. exists (final (m self)). split; [done|].
    rewrite Hm. congruence.
  - rewrite lookup_insert_ne by done. by exists self'.
Qed.

(** X15. In every database built by [create] calls and calls of methods that do
    not rename their table, each name of [_tables] refers to a live table
    object whose own name is that name: this holds of a new database, and
    [create] and such method calls keep it. As a consequence [get] on a
    present name hands out a reference on which a method can be called. *)
Theorem names_agree_kept (w : Database.world) :
  names_agree Database.init
  ∧ (names_agree w →
     ∀ table_name, names_agree (snd (Database.create table_name w)))
  ∧ (names_agree w →
     ∀ A (m : M A) table o w',
       keeps_name m → on_table table m w = Some (o, w') → names_agree w')
  ∧ (names_agree w →
     ∀ A (m : M A) table_name table,
       Database.get table_name w = inr table →
       ∃ self, Database.heap w !! table = Some self
               ∧ name self = table_name
               ∧ is_Some (on_table table m w)).
Proof.
  split; [|split; [|split]].
  - apply names_agree_init.
  - intros Hw table_name. by apply names_agree_create.
  - intros Hw A m table o w' Hm Hrun. by eapply names_agree_on_table.
  - intros Hw A m table_name table Hget. unfold Database.get in Hget.
    destruct (Database._tables (Database.self w) !! table_name) as [r|] eqn:Hn;
      [|done].
    injection Hget as ->.
    destruct (Hw table_name table Hn) as (self & Hself & Hname).
    exists self. split; [done|]. split; [done|].
    unfold on_table. rewrite Hself. eauto.
Qed.

(** X16. Tables of different names are different objects: under the invariant
    above, two different names never refer to the same table, and a method
    called on the table of one name changes neither the table of the other
    name nor the names of the database. *)
Theorem tables_isolated (w : Database.world) (n1 n2 : string)
    (t1 t2 : ref) :
  names_agree w → n1 ≠ n2 →
  Database.get n1 w = inr t1 → Database.get n2 w = inr t2 →
  t1 ≠ t2
  ∧ ∀ A (m : M A) o w',
      on_table t1 m w = Some (o, w') →
      Database.heap w' !! t2 = Database.heap w !! t2
      ∧ Database.self w' = Database.self w
      ∧ Database.get n2 w' = inr t2.
Proof.
  intros Hw Hne Hget1 Hget2. unfold Database.get in *.
  destruct (Database._tables (Database.self w) !! n1) as [r1|] eqn:H1;
    [|done].
  destruct (Database._tables (Database.self w) !! n2) as [r2|] eqn:H2;
    [|done].
  injection Hget1 as ->. injection Hget2 as ->.
  assert (t1 ≠ t2) as Hrefs.
  { intros ->.
    destruct (Hw n1 t2 H1) as (s1 & Hs1 & Hname1).
    destruct (Hw n2 t2 H2) as (s2 & Hs2 & Hname2).
    congruence. }
  split; [done|]. intros A m o w' Hrun. unfold on_table in Hrun.
  destruct (Database.heap w !! t1) as [self|]; [|done].
  injection Hrun as <- <-. simpl.
  rewrite lookup_insert_ne by done. by rewrite H2.
Qed.

(** X17. The reference [create] returns and the reference [get] returns denote
    one object: a method called on the table returned by [create] runs on
    the empty table of that name, and its effect is the state of the table
    that [get] returns afterwards. *)
Theorem create_then_get_same_object (w : Database.world)
    (table_name : string) (A : Type) (m : M A) :
  let created := Database.create table_name w in
  ∃ w',
    on_table (fst created) m (snd created)
    = Some (m (Table.init table_name), w')
    ∧ Database.get table_name w' = inr (fst created)
    ∧ Database.heap w' !! fst created
      = Some (final (m (Table.init table_name))).
Proof.
  intros created. unfold on_table, created. simpl.
  rewrite lookup_insert_eq. eexists. split; [done|]. simpl. split.
  - unfold Database.get. simpl. by rewrite lookup_insert_eq.
  - by rewrite lookup_insert_eq.
Qed.

(** ** A field named [self] *)

(** X18. [add_field] accepts the name [self], but a table whose schema has a
    field of that name accepts no row: every call of [add_row] with distinct
    keyword names raises, [TypeError] when it supplies the name [self] and
    [ValueError] when it does not, and leaves the table as it was. *)
Theorem self_field_accepts_no_row (self : TableState.t) (kw : kwargs) :
  NoDup kw.*1 → "self" ∈ Table.fields self →
  ("self" ∈ kw.*1 →
   result (Table.add_row kw self)
   = inl (TypeError (msg_self "Table.add_row")))
  ∧ ("self" ∉ kw.*1 →
     ∃ msg, result (Table.add_row kw self) = inl (ValueError msg))
  ∧ final (Table.add_row kw self) = self.
Proof.
  intros Hkeys Hfield.
  assert (result (Table.add_row kw self) ≠ inr tt) as Hfail.
  { intros Hok.
    pose proof (add_row_ok_names kw self Hkeys Hok "self") as Hnames.
    apply add_row_ok in Hok as (Hbound & _). by apply Hbound, Hnames. }
  split; [|split].
  - intros Hin. by rewrite add_row_self.
  - intros Hout.
    destruct (add_row_cases kw self)
      as [[Hin _]|[(_ & msg & Heq)|(_ & _ & _ & Heq)]].
    + done.
    + exists msg. by rewrite Heq.
    + by rewrite Heq in Hfail.
  - by apply add_row_final_error.
Qed.

(** * The further properties at concrete inputs *)

Lemma keys_with_self : NoDup Ex.with_self.*1.
Proof. apply (bool_decide_unpack _). vm_compute. reflexivity. Defined.

Lemma row_init_dict_witness :
  NoDup Ex.ana.*1 ∧ ("self" ∉ Ex.ana.*1)
  ∧ Row.init Ex.ana = inr (Row.mk (Dict Ex.ana))
  ∧ "self" ∈ Ex.with_self.*1
  ∧ Row.init Ex.with_self = inl (TypeError (msg_self "Row.__init__")).
Proof.
  assert ("self" ∈ Ex.with_self.*1) as Hself
    by (apply list_elem_of_further, list_elem_of_here).
  split; [exact keys_ana|]. split; [exact bound_ana|]. split.
  - exact (proj1 (proj2 (row_init_dict Ex.ana keys_ana) bound_ana)).
  - split; [exact Hself|].
    exact (proj1 (row_init_dict Ex.with_self keys_with_self) Hself).
Defined.


Lemma add_row_keyword_order_witness :
  NoDup Ex.ana.*1 ∧ Ex.ana ≡ₚ Ex.ana_swapped
  ∧ (result (Table.add_row Ex.ana Ex.users) = inr tt ↔
     result (Table.add_row Ex.ana_swapped Ex.users) = inr tt)
  ∧ final (Table.add_row Ex.ana_swapped Ex.users)
    = with_row Ex.users (Row.mk (Dict Ex.ana_swapped)).
Proof.
  assert (Ex.ana ≡ₚ Ex.ana_swapped) as Hperm by apply perm_swap.
  assert (result (Table.add_row Ex.ana Ex.users) = inr tt) as Hok
    by (vm_compute; reflexivity).
  split; [exact keys_ana|]. split; [exact Hperm|].
  destruct (add_row_keyword_order Ex.users Ex.ana Ex.ana_swapped keys_ana
              Hperm) as (Hiff & Hfinal & _).
  split; [exact Hiff|]. exact (proj1 (proj2 (Hfinal Hok))).
Defined.

Lemma add_row_first_offender_witness :
  ("self" ∉ Ex.bad_age.*1)
  ∧ result (Table.add_row Ex.bad_age Ex.users)
    = inl (ValueError (Table.msg_type "age")).
Proof.
  assert ("self" ∉ Ex.bad_age.*1) as Hself.
  { apply (bool_decide_unpack _). vm_compute. reflexivity. }
  split; [exact Hself|].
  exact (proj1 (add_row_first_offender Ex.users [("name", VStr "Ana")] []
                  "age" (VStr "x") Hself eq_refl eq_refl eq_refl)).
Defined.

Lemma add_row_empty_schema_witness :
  (result (Table.add_row [] (Table.init "t")) = inr tt
   ∧ Table.rows (final (Table.add_row [] (Table.init "t")))
     = Table.rows (Table.init "t") ++ [Dict []])
  ∧ result (Table.add_row Ex.bob (Table.init "t"))
    = inl (ValueError Table.msg_count)
  ∧ result (Table.add_row Ex.self_kw (Table.init "t"))
    = inl (TypeError (msg_self "Table.add_row")).
Proof.
  split; [|split].
  - apply (add_row_empty_schema (Table.init "t") []); reflexivity.
  - apply (add_row_empty_schema (Table.init "t") Ex.bob);
      [reflexivity | intros [=]].
  - apply (add_row_empty_schema (Table.init "t") Ex.self_kw);
      [reflexivity | intros [=]].
Defined.

Lemma dict_schema_accepts_witness :
  NoDup Ex.users_dict.*1 ∧ ("self" ∉ Ex.users_dict.*1)
  ∧ result (Table.add_row Ex.eve
              (final (Table.add_fields Ex.users_dict (Table.init "users"))))
    = inr tt.
Proof.
  assert (NoDup Ex.users_dict.*1) as Hnd.
  { apply (bool_decide_unpack _). vm_compute. reflexivity. }
  assert ("self" ∉ Ex.users_dict.*1) as Hself.
  { apply (bool_decide_unpack _). vm_compute. reflexivity. }
  split; [exact Hnd|]. split; [exact Hself|].
  apply (dict_schema_accepts "users" Ex.users_dict Ex.eve Hnd).
  - exact Hself.
  - exact keys_eve.
  - reflexivity.
  - intros k v ty Hkw Hd.
    apply elem_of_cons in Hkw as [[= -> ->]|Hkw].
    + apply elem_of_cons in Hd as [[= ->]|Hd]; [reflexivity|].
      apply list_elem_of_singleton in Hd as [=].
    + apply list_elem_of_singleton in Hkw as [= -> ->].
      apply elem_of_cons in Hd as [[=]|Hd].
      apply list_elem_of_singleton in Hd as [= ->]. reflexivity.
Defined.

Lemma rows_conform_kept_witness :
  rows_conform Ex.users
  ∧ NoDup Ex.ana.*1
  ∧ rows_conform (final (Table.add_row Ex.ana Ex.users))
  ∧ rows_conform (final (Table.add_field "email" str Ex.users)).
Proof.
  assert (rows_conform Ex.users) as Hconf by apply Forall_nil_2.
  split; [exact Hconf|]. split; [exact keys_ana|]. split.
  - exact (proj2 (proj2 (rows_conform_kept Ex.users)) Hconf Ex.ana keys_ana).
  - exact (proj1 (proj1 (proj2 (rows_conform_kept Ex.users)) eq_refl
                    "email" str [])).
Defined.

Lemma with_ana_conforms : rows_conform Ex.with_ana.
Proof.
  apply rows_conform_add_row; [exact keys_ana | apply Forall_nil_2].
Qed.

Lemma add_field_after_rows_witness :
  rows_conform Ex.with_ana ∧ ("email" ∉ Table.fields Ex.with_ana)
  ∧ (∀ row, row ∈ _rows (final (Table.add_field "email" str Ex.with_ana)) →
       Row.fields row !! "email" = None).
Proof.
  assert ("email" ∉ Table.fields Ex.with_ana) as Hnew.
  { apply (bool_decide_unpack _). vm_compute. reflexivity. }
  split; [exact with_ana_conforms|]. split; [exact Hnew|].
  exact (proj1 (proj2 (add_field_after_rows Ex.with_ana "email" str
                         with_ana_conforms Hnew))).
Defined.

Lemma add_row_then_find_witness :
  result (Table.add_row Ex.ana Ex.users) = inr tt
  ∧ Ex.adult (Row.mk (Dict Ex.ana)) = true
  ∧ Table.rows Ex.with_ana = Table.rows Ex.users ++ [Dict Ex.ana]
  ∧ result (Table.findMany Ex.adult 0 Ex.with_ana)
    = inr (List.filter Ex.adult (_rows Ex.users) ++ [Row.mk (Dict Ex.ana)]).
Proof.
  assert (result (Table.add_row Ex.ana Ex.users) = inr tt) as Hok
    by (vm_compute; reflexivity).
  assert (Ex.adult (Row.mk (Dict Ex.ana)) = true) as Hadult
    by (vm_compute; reflexivity).
  split; [exact Hok|]. split; [exact Hadult|].
  pose proof (add_row_then_find Ex.users Ex.ana Ex.adult keys_ana Hok
                Hadult) as (_ & _ & Hrows & _ & Hmany).
  split; [exact Hrows | exact Hmany].
Defined.

Lemma findMany_limit_prefix_witness :
  0 < 2
  ∧ ∃ every,
      result (Table.findMany Ex.adult 0 Ex.people) = inr every
      ∧ result (Table.findMany Ex.adult 2 Ex.people) = inr (take 2 every).
Proof.
  split; [reflexivity|].
  destruct (findMany_limit_prefix Ex.people Ex.adult 2 eq_refl)
    as (every & Hall & Hcut & _).
  exists every. split; [exact Hall | exact Hcut].
Defined.

Lemma create_replaces_witness :
  let created := Database.create "users" (snd Ex.db1) in
  fst created ≠ fst Ex.db1
  ∧ Database.get "users" (snd created) = inr (fst created)
  ∧ Database.heap (snd created) !! fst Ex.db1 = Some (Table.init "users").
Proof.
  destruct (create_replaces (snd Ex.db1) "users" (fst Ex.db1)
              (Table.init "users")) as (Hne & Hget & _ & Hold & _).
  - simpl. apply lookup_insert_eq.
  - simpl. apply lookup_insert_eq.
  - split; [exact Hne|]. split; [exact Hget | exact Hold].
Defined.

Lemma db1_names_agree : names_agree (snd Ex.db1).
Proof. apply names_agree_create, names_agree_init. Qed.

Lemma db2_names_agree : names_agree (snd Ex.db2).
Proof. apply names_agree_create, db1_names_agree. Qed.

Lemma names_agree_kept_witness :
  names_agree (snd Ex.db1)
  ∧ names_agree (snd (Database.create "orders" (snd Ex.db1)))
  ∧ ∃ self, Database.heap (snd Ex.db1) !! fst Ex.db1 = Some self
            ∧ name self = "users"
            ∧ is_Some (on_table (fst Ex.db1) (Table.add_row Ex.ana)
                         (snd Ex.db1)).
Proof.
  split; [exact db1_names_agree|]. split.
  - exact (proj1 (proj2 (names_agree_kept (snd Ex.db1))) db1_names_agree
             "orders").
  - apply (proj2 (proj2 (proj2 (names_agree_kept (snd Ex.db1))))
             db1_names_agree unit (Table.add_row Ex.ana) "users" (fst Ex.db1)).
    unfold Database.get. simpl. by rewrite lookup_insert_eq.
Defined.

Lemma tables_isolated_witness :
  fst Ex.db1 ≠ fst Ex.db2
  ∧ ∀ o w',
      on_table (fst Ex.db1) (Table.add_row Ex.ana) (snd Ex.db2) = Some (o, w') →
      Database.heap w' !! fst Ex.db2 = Database.heap (snd Ex.db2) !! fst Ex.db2.
Proof.
  destruct (tables_isolated (snd Ex.db2) "users" "orders" (fst Ex.db1)
              (fst Ex.db2) db2_names_agree) as [Hne Hframe].
  - intros [=].
  - unfold Database.get. simpl.
    rewrite lookup_insert_ne by (intros [=]). by rewrite lookup_insert_eq.
  - unfold Database.get. simpl. by rewrite lookup_insert_eq.
  - split; [exact Hne|]. intros o w' Hrun.
    exact (proj1 (Hframe unit (Table.add_row Ex.ana) o w' Hrun)).
Defined.

Lemma self_field_accepts_no_row_witness :
  NoDup Ex.self_kw.*1 ∧ "self" ∈ Table.fields Ex.self_schema
  ∧ final (Table.add_row Ex.self_kw Ex.self_schema) = Ex.self_schema
  ∧ ∃ msg, result (Table.add_row [("name", VStr "Eve")] Ex.self_schema)
           = inl (ValueError msg).
Proof.
  assert (NoDup Ex.self_kw.*1) as Hkeys.
  { apply (bool_decide_unpack _). vm_compute. reflexivity. }
  assert (NoDup [("name", VStr "Eve")].*1) as Hkeys'.
  { apply (bool_decide_unpack _). vm_compute. reflexivity. }
  assert ("self" ∉ [("name", VStr "Eve")].*1) as Hout.
  { apply (bool_decide_unpack _). vm_compute. reflexivity. }
  assert ("self" ∈ Table.fields Ex.self_schema) as Hfield
    by apply list_elem_of_here.
  split; [exact Hkeys|]. split; [exact Hfield|]. split.
  - exact (proj2 (proj2 (self_field_accepts_no_row Ex.self_schema Ex.self_kw
                           Hkeys Hfield))).
  - exact (proj1 (proj2 (self_field_accepts_no_row Ex.self_schema
                           [("name", VStr "Eve")] Hkeys' Hfield)) Hout).
Defined.
